(** * Mezvaro: the middleware chain and its execution context

    A shallow embedding of [mezvaro.go] and [context.go] (the version with
    parent-linked pipelines and a pointer [*Context]).

    - A [*Mezvaro] is an address into a store of pipeline objects, so that
      [Fork] (which allocates) and [Use] (which mutates in place) can be
      told apart and the parent link is a real reference.
    - The [*Context] of one request is threaded as explicit state.  Go's
      [int] cursor is a [Z]: the cursor only moves by [+1] steps or is set
      to [-1] or [MaxHandlers], and the development is that of the code as
      long as the cursor stays below [math.MaxInt], where [c.index++]
      wraps.  Statements on a context whose cursor is arbitrary take it
      below [MaxInt32].
    - Handlers are user code.  A native handler is an interaction tree over
      the context API: after each operation it may inspect what the
      exported API lets it see and decide how to go on.  The adapters
      [WrapHandler] and [WrapHandlerMiddleware] are the functions of
      [mezvaro.go]; the foreign code they wrap is again a tree.
    - A ghost trace records every handler invocation made by the driver,
      every call of [Next] and of [Abort], and handler-local effects.
    - [Next] may not return (a pipeline may contain itself), so the driver
      takes fuel; a run that exhausts it reports the state reached. *)

From Stdlib Require Import ZArith Lia.
From stdpp Require Import base list.

Local Open Scope Z_scope.

(** ** Transport objects and the nested scope *)

(** [http.ResponseWriter] and [*http.Request] are only compared by
    identity, so an object is its identity. *)
Definition http_ResponseWriter := nat.
Definition http_Request := nat.

(** The value of [netCtx]: a chain of scopes above [context.Background()],
    each made by [context.WithValue], [WithCancel] or [WithDeadline]. *)
Inductive NetCtx : Type :=
| Background
| valueCtx (parent : NetCtx) (key val : nat)
| cancelCtx (parent : NetCtx)
| timerCtx (parent : NetCtx) (deadline : Z).

(** [map[string]string] of URL parameters; [nil] is the empty list. *)
Definition UrlParams := list (nat * nat).

(** ** The ghost trace *)

Inductive Event : Type :=
| Invoked (i : Z)       (* the driver called [handlerChain[i].Handle(c)] *)
| Continued             (* [c.Next()] was entered *)
| Aborted               (* [c.Abort()] was called *)
| Did (n : nat).        (* some work local to a handler *)

(** ** Handlers *)

(** What a handler can observe of the context it is given. *)
Record View : Type := mkView {
  vResponse : http_ResponseWriter;
  vRequest : http_Request;
  vIsAborted : bool;
  vNetCtx : NetCtx;
  vUrlParams : UrlParams;
  vTrace : list Event
}.

(** The operations a native handler performs on its [*Context]. *)
Inductive Op : Type :=
| Effect (n : nat)
| CallNext
| CallAbort
| SetResponse (w : http_ResponseWriter)
| SetRequest (r : http_Request)
| CallWithValue (key val : nat)
| CallWithCancel
| CallWithDeadline (d : Z).

Inductive Body : Type :=
| Return
| Do (op : Op) (k : View -> Body).

(** A foreign [http.Handler] obtained from a decorator: it works on the
    objects it is served with and may serve the inner handler it wraps. *)
Inductive SinkOp : Type :=
| SinkEffect (n : nat)
| ServeInner (w : http_ResponseWriter) (r : http_Request).

Inductive Sink : Type :=
| SinkReturn
| SinkDo (op : SinkOp) (k : View -> Sink).

Definition loc := nat.

(** The values of the interface [Handler]: a [HandlerFunc], a [*Mezvaro]
    (it has a [Handle] method), and the results of the two adapters. *)
Inductive Handler : Type :=
| HandlerFunc (hf : View -> Body)
| Pipeline (m : loc)
| WrapHandlerMiddleware (middleware : http_ResponseWriter -> http_Request -> Sink)
| WrapHandler (handler : http_ResponseWriter -> http_Request -> list nat).

(** [WrapHandlerFunc(handler)] is [WrapHandler(http.HandlerFunc(handler))]. *)
Definition WrapHandlerFunc
    (handler : http_ResponseWriter -> http_Request -> list nat) : Handler :=
  WrapHandler handler.

(** ** Pipelines *)

Module Mezvaro.
Record t : Type := mk {
  parent : option loc;
  handlerChain : list Handler
}.
End Mezvaro.

Abbreviation Store := (list Mezvaro.t).

(** [&Mezvaro{...}] allocates at the end of the store. *)
Definition alloc (st : Store) (m : Mezvaro.t) : Store * loc :=
  (st ++ [m], length st).

Definition New (st : Store) (handlers : list Handler) : Store * loc :=
  alloc st (Mezvaro.mk None handlers).

(** [m.handlerChain = append(m.handlerChain, handler...)]. *)
Definition Use (st : Store) (m : loc) (handler : list Handler) : Store :=
  match st !! m with
  | Some o =>
      <[m := Mezvaro.mk (Mezvaro.parent o) (Mezvaro.handlerChain o ++ handler)]> st
  | None => st
  end.

Definition UseFunc (st : Store) (m : loc) (handlerFuncs : list (View -> Body)) : Store :=
  Use st m (map HandlerFunc handlerFuncs).

Definition UseHandlerMiddleware (st : Store) (m : loc)
    (middleware : list (http_ResponseWriter -> http_Request -> Sink)) : Store :=
  Use st m (map WrapHandlerMiddleware middleware).

Definition UseHandler (st : Store) (m : loc)
    (handlers : list (http_ResponseWriter -> http_Request -> list nat)) : Store :=
  Use st m (map WrapHandler handlers).

Definition UseHandlerFunc (st : Store) (m : loc)
    (handlers : list (http_ResponseWriter -> http_Request -> list nat)) : Store :=
  Use st m (map WrapHandlerFunc handlers).

Definition Fork (st : Store) (m : loc) (handlers : list Handler) : Store * loc :=
  alloc st (Mezvaro.mk (Some m) handlers).

(** The first loop of [wholeChain]: [for current != nil], collecting
    [parents].  It does not end on a cyclic store, hence the fuel. *)
Fixpoint collect_parents (fuel : nat) (st : Store) (current : option loc)
    : option (list Mezvaro.t) :=
  match current with
  | None => Some []
  | Some a =>
      match fuel with
      | O => None
      | S fuel' =>
          match st !! a with
          | None => None
          | Some o =>
              match collect_parents fuel' st (Mezvaro.parent o) with
              | Some ps => Some (o :: ps)
              | None => None
              end
          end
      end
  end.

(** The second loop: [for i := len(parents) - 1; i >= 0; i--], appending
    [parents[i].handlerChain] to [handlers]. *)
Definition append_reversed (parents : list Mezvaro.t) : list Handler :=
  foldr (fun p handlers => handlers ++ Mezvaro.handlerChain p) [] parents.

Definition wholeChain_fuel (fuel : nat) (st : Store) (m : loc) : option (list Handler) :=
  match collect_parents fuel st (Some m) with
  | Some parents => Some (append_reversed parents)
  | None => None
  end.

(** A walk over more objects than the store holds has met one twice. *)
Definition wholeChain (st : Store) (m : loc) : option (list Handler) :=
  wholeChain_fuel (S (length st)) st m.

(** ** The execution context *)

Definition MaxHandlers : Z := 32767.   (* int(math.MaxInt16) *)

Record Context : Type := mkContext {
  Response : http_ResponseWriter;
  Request : http_Request;
  handlerChain : list Handler;
  index : Z;
  urlParams : UrlParams;
  netCtx : NetCtx
}.

Definition newContext (w : http_ResponseWriter) (r : http_Request)
    (handlerChain : list Handler) (urlParams : UrlParams) : Context :=
  mkContext w r handlerChain (-1) urlParams Background.

Definition set_index (i : Z) (c : Context) : Context :=
  mkContext (Response c) (Request c) (handlerChain c) i (urlParams c) (netCtx c).

Definition set_handlerChain (l : list Handler) (c : Context) : Context :=
  mkContext (Response c) (Request c) l (index c) (urlParams c) (netCtx c).

Definition set_Response (w : http_ResponseWriter) (c : Context) : Context :=
  mkContext w (Request c) (handlerChain c) (index c) (urlParams c) (netCtx c).

Definition set_Request (r : http_Request) (c : Context) : Context :=
  mkContext (Response c) r (handlerChain c) (index c) (urlParams c) (netCtx c).

Definition set_netCtx (n : NetCtx) (c : Context) : Context :=
  mkContext (Response c) (Request c) (handlerChain c) (index c) (urlParams c) n.

(** [c.index = MaxHandlers]. *)
Definition Abort (c : Context) : Context := set_index MaxHandlers c.

(** [c.index >= MaxHandlers]. *)
Definition IsAborted (c : Context) : bool := MaxHandlers <=? index c.

(** [c.urlParams[name]]: the zero value when the name is absent. *)
Fixpoint UrlParam_in (ps : UrlParams) (name : nat) : nat :=
  match ps with
  | [] => 0%nat
  | (k, v) :: rest => if Nat.eqb k name then v else UrlParam_in rest name
  end.

Definition UrlParam (c : Context) (name : nat) : nat :=
  UrlParam_in (urlParams c) name.

Definition WithValue (key val : nat) (c : Context) : Context :=
  set_netCtx (valueCtx (netCtx c) key val) c.

Definition WithCancel (c : Context) : Context :=
  set_netCtx (cancelCtx (netCtx c)) c.

Definition WithDeadline (d : Z) (c : Context) : Context :=
  set_netCtx (timerCtx (netCtx c) d) c.

Fixpoint Value_in (n : NetCtx) (key : nat) : option nat :=
  match n with
  | Background => None
  | valueCtx p k v => if Nat.eqb k key then Some v else Value_in p key
  | cancelCtx p => Value_in p key
  | timerCtx p _ => Value_in p key
  end.

Definition Value (c : Context) (key : nat) : option nat := Value_in (netCtx c) key.

(** ** Running a chain *)

(** The context of the request together with the ghost trace. *)
Record World : Type := mkWorld {
  ctx : Context;
  trace : list Event
}.

Definition on_ctx (f : Context -> Context) (w : World) : World :=
  mkWorld (f (ctx w)) (trace w).

Definition note (e : Event) (w : World) : World :=
  mkWorld (ctx w) (trace w ++ [e]).

Definition view_of (w : World) : View :=
  mkView (Response (ctx w)) (Request (ctx w)) (IsAborted (ctx w))
         (netCtx (ctx w)) (urlParams (ctx w)) (trace w).

(** [c.index++]. *)
Definition incr_index (w : World) : World :=
  on_ctx (fun c => set_index (index c + 1) c) w.

Definition abort_op (w : World) : World := note Aborted (on_ctx Abort w).

(** [c.handlerChain[i]]; an index out of range panics. *)
Definition chain_at (l : list Handler) (i : Z) : option Handler :=
  if i <? 0 then None else l !! Z.to_nat i.

Inductive Result : Type :=
| Done (w : World)          (* the call returned *)
| Panic (w : World)         (* index out of range *)
| OutOfFuel (w : World).    (* still running *)

Definition world_of (r : Result) : World :=
  match r with Done w | Panic w | OutOfFuel w => w end.

Definition is_Done (r : Result) : bool :=
  match r with Done _ => true | _ => false end.

Section Exec.
Variable st : Store.

Section WithNext.
(** What [c.Next()] does, for the calls made by handlers. *)
Variable next : World -> Result.

(** The operations other than [c.Next()] return at once. *)
Definition prim (op : Op) (w : World) : World :=
  match op with
  | Effect n => note (Did n) w
  | CallNext => w
  | CallAbort => abort_op w
  | SetResponse rw => on_ctx (set_Response rw) w
  | SetRequest rq => on_ctx (set_Request rq) w
  | CallWithValue k v => on_ctx (WithValue k v) w
  | CallWithCancel => on_ctx WithCancel w
  | CallWithDeadline d => on_ctx (WithDeadline d) w
  end.

Definition do_op (op : Op) (w : World) : Result :=
  match op with
  | CallNext => next w
  | _ => Done (prim op w)
  end.

Fixpoint run_body (b : Body) (w : World) : Result :=
  match b with
  | Return => Done w
  | Do op k =>
      match do_op op w with
      | Done w' => run_body (k (view_of w')) w'
      | r => r
      end
  end.

(** The inner handler given to the decorator:
    [calledNext = true; c.Response = w; c.Request = r; c.Next()]. *)
Definition inner_sink (rw : http_ResponseWriter) (rq : http_Request)
    (w : World) : Result :=
  next (on_ctx (set_Request rq) (on_ctx (set_Response rw) w)).

(** [handler.ServeHTTP(c.Response, c.Request)] followed by
    [if !calledNext { c.Abort() }]. *)
Fixpoint run_sink (s : Sink) (calledNext : bool) (w : World) : Result :=
  match s with
  | SinkReturn => if calledNext then Done w else Done (abort_op w)
  | SinkDo (SinkEffect n) k =>
      let w' := note (Did n) w in run_sink (k (view_of w')) calledNext w'
  | SinkDo (ServeInner rw rq) k =>
      match inner_sink rw rq w with
      | Done w' => run_sink (k (view_of w')) true w'
      | r => r
      end
  end.

Definition run_effects (l : list nat) (w : World) : World :=
  foldl (fun w n => note (Did n) w) w l.

(** [m.Handle(c)] of a pipeline:
    [c.handlerChain = m.wholeChain(); c.index = -1; c.Next()]. *)
Definition Handle_pipeline (m : loc) (w : World) : Result :=
  match wholeChain st m with
  | None => OutOfFuel w
  | Some l => next (on_ctx (set_index (-1)) (on_ctx (set_handlerChain l) w))
  end.

(** [h.Handle(c)] for each kind of handler. *)
Definition Handle_with (h : Handler) (w : World) : Result :=
  match h with
  | HandlerFunc hf => run_body (hf (view_of w)) w
  | Pipeline m => Handle_pipeline m w
  | WrapHandlerMiddleware middleware =>
      run_sink (middleware (Response (ctx w)) (Request (ctx w))) false w
  | WrapHandler handler =>
      next (run_effects (handler (Response (ctx w)) (Request (ctx w))) w)
  end.
End WithNext.

(** The loop of [Next]:
    [for ; c.index < s; c.index++ { c.handlerChain[c.index].Handle(c) }],
    entered after [c.index++] and [s := len(c.handlerChain)]. *)
Fixpoint drive (fuel : nat) (s : Z) (w : World) : Result :=
  match fuel with
  | O => OutOfFuel w
  | S fuel' =>
      if index (ctx w) <? s then
        match chain_at (handlerChain (ctx w)) (index (ctx w)) with
        | None => Panic w
        | Some h =>
            match
              Handle_with
                (fun w' => drive fuel' (Z.of_nat (length (handlerChain (ctx w'))))
                                 (incr_index (note Continued w')))
                h (note (Invoked (index (ctx w))) w)
            with
            | Done w' => drive fuel' s (incr_index w')
            | r => r
            end
        end
      else Done w
  end.

Definition Next (fuel : nat) (w : World) : Result :=
  drive fuel (Z.of_nat (length (handlerChain (ctx w))))
        (incr_index (note Continued w)).

(** [Handle] of [*Mezvaro]. *)
Definition Handle (fuel : nat) (m : loc) (w : World) : Result :=
  Handle_pipeline (Next fuel) m w.

(** [ServeHTTP] of [*Mezvaro]: a new context on the resolved chain. *)
Definition ServeHTTP (urlParamsExtractor : http_Request -> UrlParams)
    (fuel : nat) (m : loc) (w : http_ResponseWriter) (r : http_Request) : Result :=
  match wholeChain st m with
  | None => OutOfFuel (mkWorld (newContext w r [] (urlParamsExtractor r)) [])
  | Some l => Next fuel (mkWorld (newContext w r l (urlParamsExtractor r)) [])
  end.

(** The closure returned by [H]; [wholeChain] is its captured variable. *)
Definition H_closure (wholeChain : list Handler)
    (urlParamsExtractor : http_Request -> UrlParams)
    (fuel : nat) (w : http_ResponseWriter) (r : http_Request) : Result :=
  Next fuel (mkWorld (newContext w r wholeChain (urlParamsExtractor r)) []).
End Exec.

(** [H] of [*Mezvaro]: [wholeChain := append(m.wholeChain(), h)], computed
    when [H] is called; the result is the variable the closure captures. *)
Definition H (st : Store) (m : loc) (h : Handler) : option (list Handler) :=
  match wholeChain st m with
  | Some l => Some (l ++ [h])
  | None => None
  end.

Definition HF (st : Store) (m : loc) (h : View -> Body) : option (list Handler) :=
  H st m (HandlerFunc h).

(** The positions of the handler invocations in a trace, in order. *)
Fixpoint calls (tr : list Event) : list Z :=
  match tr with
  | [] => []
  | Invoked i :: tr' => i :: calls tr'
  | _ :: tr' => calls tr'
  end.

(** * Pipelines: resolution and forking *)

(** The pipelines from [m] up to the oldest ancestor, as the specification
    describes the walk: [m] first, the root last. *)
Inductive Lineage (st : Store) : loc -> list Mezvaro.t -> Prop :=
| lineage_root a o :
    st !! a = Some o -> Mezvaro.parent o = None -> Lineage st a [o]
| lineage_child a o p os :
    st !! a = Some o -> Mezvaro.parent o = Some p -> Lineage st p os ->
    Lineage st a (o :: os).

(** The own lists of a lineage, oldest ancestor first. *)
Definition oldest_first (os : list Mezvaro.t) : list Handler :=
  concat (map Mezvaro.handlerChain (reverse os)).

(** Stores built by [New] and [Fork]: a parent is older than its child. *)
Definition wf_store (st : Store) : Prop :=
  forall (a : loc) (o : Mezvaro.t) (p : loc),
    st !! a = Some o -> Mezvaro.parent o = Some p -> (p < a)%nat.

Lemma append_reversed_oldest_first (os : list Mezvaro.t) :
  append_reversed os = oldest_first os.
Proof.
  unfold append_reversed, oldest_first.
  induction os as [|o os IH]; simpl; [done|].
  rewrite IH, reverse_cons, map_app, concat_app. simpl.
  by rewrite app_nil_r.
Qed.

Lemma Lineage_length_pos st a os : Lineage st a os -> (0 < length os)%nat.
Proof. destruct 1; simpl; lia. Qed.

Lemma collect_parents_Lineage st a os :
  Lineage st a os ->
  forall fuel, (length os <= fuel)%nat -> collect_parents fuel st (Some a) = Some os.
Proof.
  induction 1 as [a o Ho Hp | a o p os Ho Hp Hl IH]; intros fuel Hf.
  - destruct fuel as [|fuel]; simpl in *; [lia|].
    rewrite Ho, Hp. by destruct fuel.
  - destruct fuel as [|fuel]; simpl in *; [lia|].
    rewrite Ho, Hp, IH by lia. done.
Qed.

Lemma wf_store_Lineage st :
  wf_store st ->
  forall n a, (a < n)%nat -> (a < length st)%nat ->
    exists os, Lineage st a os /\ (length os <= S a)%nat.
Proof.
  intros Hwf. induction n as [|n IH]; intros a Han Ha; [lia|].
  destruct (lookup_lt_is_Some_2 st a Ha) as [o Ho].
  destruct (Mezvaro.parent o) as [p|] eqn:Hp.
  - pose proof (Hwf a o p Ho Hp) as Hlt.
    destruct (IH p) as (os & Hos & Hlen); [lia|lia|].
    exists (o :: os). split; [by eapply lineage_child|simpl; lia].
  - exists [o]. split; [by apply lineage_root|simpl; lia].
Qed.

Lemma wholeChain_Lineage st m os :
  Lineage st m os -> (length os <= S (length st))%nat ->
  wholeChain st m = Some (oldest_first os).
Proof.
  intros Hl Hlen. unfold wholeChain, wholeChain_fuel.
  rewrite (collect_parents_Lineage st m os Hl) by done.
  by rewrite append_reversed_oldest_first.
Qed.

Lemma wholeChain_wf st m :
  wf_store st -> (m < length st)%nat ->
  exists os, Lineage st m os /\ wholeChain st m = Some (oldest_first os).
Proof.
  intros Hwf Hm.
  destruct (wf_store_Lineage st Hwf (S m) m) as (os & Hos & Hlen); [lia|done|].
  exists os. split; [done|]. apply wholeChain_Lineage; [done|lia].
Qed.

Lemma Lineage_alloc st o' a os :
  Lineage st a os -> Lineage (st ++ [o']) a os.
Proof.
  induction 1 as [a o Ho Hp | a o p os Ho Hp Hl IH].
  - apply lineage_root; [|done]. by apply lookup_app_l_Some.
  - eapply lineage_child; [|done|done]. by apply lookup_app_l_Some.
Qed.

Lemma wf_store_nil : wf_store [].
Proof. intros a o p Ho. by destruct a. Qed.

Lemma wf_store_alloc st o :
  wf_store st ->
  (forall p, Mezvaro.parent o = Some p -> (p < length st)%nat) ->
  wf_store (st ++ [o]).
Proof.
  intros Hwf Hp a o' p Ha Hpar.
  destruct (decide (a < length st)%nat) as [Hlt|Hge].
  - rewrite lookup_app_l in Ha by done. by eapply Hwf.
  - rewrite lookup_app_r in Ha by lia.
    destruct (a - length st)%nat as [|k] eqn:Hk; simpl in Ha; [|done].
    inversion Ha; subst o'. specialize (Hp p Hpar). lia.
Qed.

Lemma wf_store_New st hs : wf_store st -> wf_store (New st hs).1.
Proof. intros Hwf. apply wf_store_alloc; [done|]. by intros p. Qed.

Lemma wf_store_Fork st m hs :
  wf_store st -> (m < length st)%nat -> wf_store (Fork st m hs).1.
Proof.
  intros Hwf Hm. apply wf_store_alloc; [done|].
  simpl. intros p [= <-]. done.
Qed.

Lemma wf_store_Use st m hs : wf_store st -> wf_store (Use st m hs).
Proof.
  intros Hwf. unfold Use. destruct (st !! m) as [o|] eqn:Ho; [|done].
  intros a o' p Ha Hp.
  destruct (decide (a = m)) as [->|Hne].
  - rewrite list_lookup_insert_eq in Ha by (by eapply lookup_lt_Some).
    inversion Ha; subst o'. simpl in Hp. by eapply Hwf.
  - rewrite list_lookup_insert_ne in Ha by done. by eapply Hwf.
Qed.

(** The chain of a fork is the chain of its parent followed by the
    handlers given to [Fork]. *)
Lemma wholeChain_Fork st m hs l :
  wf_store st -> (m < length st)%nat ->
  wholeChain st m = Some l ->
  wholeChain (Fork st m hs).1 (Fork st m hs).2 = Some (l ++ hs).
Proof.
  intros Hwf Hm Hl.
  destruct (wf_store_Lineage st Hwf (S m) m) as (os & Hos & Hlen); [lia|done|].
  rewrite (wholeChain_Lineage st m os) in Hl by (done || lia).
  inversion Hl; subst l. unfold Fork, alloc. cbn [fst snd].
  set (o := Mezvaro.mk (Some m) hs).
  assert (Lineage (st ++ [o]) (length st) (o :: os)) as Hnew.
  { eapply lineage_child with (p := m); [|done|by apply Lineage_alloc].
    rewrite lookup_app_r by lia. by rewrite Nat.sub_diag. }
  etrans; [apply (wholeChain_Lineage _ _ _ Hnew)|].
  - rewrite length_app. simpl. lia.
  - unfold oldest_first. rewrite reverse_cons, map_app, concat_app. simpl.
    by rewrite app_nil_r.
Qed.

(** An allocation leaves the chains of the pipelines already there as
    they were. *)
Lemma wholeChain_alloc st o m l :
  wf_store st -> (m < length st)%nat ->
  wholeChain st m = Some l -> wholeChain (st ++ [o]) m = Some l.
Proof.
  intros Hwf Hm Hl.
  destruct (wf_store_Lineage st Hwf (S m) m) as (os & Hos & Hlen); [lia|done|].
  rewrite (wholeChain_Lineage st m os) in Hl by (done || lia).
  rewrite (wholeChain_Lineage (st ++ [o]) m os); [done|by apply Lineage_alloc|].
  rewrite length_app. simpl. lia.
Qed.

(** Some handlers to run the definitions on. *)
Definition tick (n : nat) : Handler := HandlerFunc (fun _ => Do (Effect n) (fun _ => Return)).
Definition tick_then_next (n : nat) : Handler :=
  HandlerFunc (fun _ => Do (Effect n) (fun _ => Do CallNext (fun _ => Return))).
Definition abort_then_tick (n : nat) : Handler :=
  HandlerFunc (fun _ => Do CallAbort (fun _ => Do (Effect n) (fun _ => Return))).

Definition just_abort : Handler :=
  HandlerFunc (fun _ => Do CallAbort (fun _ => Return)).
(** Continues, and aborts once the rest of the chain has run. *)
Definition next_then_abort : Handler :=
  HandlerFunc (fun _ => Do CallNext (fun _ => Do CallAbort (fun _ => Return))).

(** Two responses and two requests. *)
Definition response1 : http_ResponseWriter := 1%nat.
Definition response2 : http_ResponseWriter := 2%nat.
Definition request1 : http_Request := 1%nat.
Definition request2 : http_Request := 2%nat.

(** A store holding one root pipeline with two handlers. *)
Definition store1 : Store := (New [] [tick 1; tick 2]).1.

Lemma wf_store1 : wf_store store1.
Proof. apply wf_store_New, wf_store_nil. Qed.

(** C1. Resolving a pipeline gives the own handler lists of the pipeline
    and of all its ancestors, concatenated oldest ancestor first; and a
    pipeline with own handlers [a; b] forked with [c; d] resolves, at the
    fork, to exactly [a; b; c; d]. *)
Theorem wholeChain_resolves (st : Store) (Hwf : wf_store st) :
  (forall m : loc, (m < length st)%nat ->
     exists os, Lineage st m os /\ wholeChain st m = Some (oldest_first os))
  /\
  (forall a b c d : Handler,
     let st1 := (New st [a; b]).1 in
     let m := (New st [a; b]).2 in
     wholeChain (Fork st1 m [c; d]).1 (Fork st1 m [c; d]).2 = Some [a; b; c; d]).
Proof.
  split.
  - intros m Hm. by apply wholeChain_wf.
  - intros a b c d st1 m.
    assert (wf_store st1) as Hwf1 by (by apply wf_store_New).
    assert (m < length st1)%nat as Hm.
    { subst st1 m. unfold New, alloc. simpl. rewrite length_app. simpl. lia. }
    assert (Lineage st1 m [Mezvaro.mk None [a; b]]) as Hl.
    { apply lineage_root; [|done]. subst st1 m. unfold New, alloc. simpl.
      rewrite lookup_app_r by lia. by rewrite Nat.sub_diag. }
    apply (wholeChain_Fork st1 m [c; d] [a; b] Hwf1 Hm).
    etrans; [apply (wholeChain_Lineage _ _ _ Hl)|done].
    simpl. lia.
Qed.

Lemma wholeChain_resolves_witness :
  wf_store store1 /\
  wholeChain (Fork (New store1 [tick 3; tick 4]).1 (New store1 [tick 3; tick 4]).2
                   [tick 5; tick 6]).1
             (Fork (New store1 [tick 3; tick 4]).1 (New store1 [tick 3; tick 4]).2
                   [tick 5; tick 6]).2
  = Some [tick 3; tick 4; tick 5; tick 6].
Proof.
  split; [exact wf_store1|].
  exact (proj2 (wholeChain_resolves store1 wf_store1) (tick 3) (tick 4) (tick 5) (tick 6)).
Defined.

(** C5. [Fork] returns a pipeline that was not there before, whose parent
    is [m] and whose own list is the handlers given; every pipeline already
    in the store, [m] among them, keeps its parent link and its own handler
    list. *)
Theorem Fork_leaves_parent (st : Store) (m : loc) (hs : list Handler) (o : Mezvaro.t)
    (Hm : st !! m = Some o) :
  let st' := (Fork st m hs).1 in
  let n := (Fork st m hs).2 in
  st' !! m = Some o /\
  n <> m /\ st !! n = None /\
  st' !! n = Some (Mezvaro.mk (Some m) hs) /\
  (forall a : loc, a <> n -> st' !! a = st !! a).
Proof.
  intros st' n. subst st' n. unfold Fork, alloc. cbn [fst snd].
  pose proof (lookup_lt_Some _ _ _ Hm) as Hlt.
  split; [by apply lookup_app_l_Some|].
  split; [lia|].
  split; [by apply lookup_ge_None_2|].
  split; [rewrite lookup_app_r by lia; by rewrite Nat.sub_diag|].
  intros a Ha.
  destruct (decide (a < length st)%nat) as [Hlt'|Hge].
  - by rewrite lookup_app_l.
  - rewrite lookup_app_r by lia.
    destruct (a - length st)%nat as [|k] eqn:Hk; [lia|].
    symmetry. apply lookup_ge_None_2. lia.
Qed.

Lemma Fork_leaves_parent_witness :
  (Fork store1 0%nat [tick 3]).1 !! 0%nat = Some (Mezvaro.mk None [tick 1; tick 2]).
Proof.
  exact (proj1 (Fork_leaves_parent store1 0%nat [tick 3]
                  (Mezvaro.mk None [tick 1; tick 2]) eq_refl)).
Defined.

(** * Running chains: classes of handlers *)

(** A class of handlers is given by the operations its native handlers may
    perform ([A]), the operations a decorated foreign handler may perform
    on the objects it was served with ([SA]), and whether such a foreign
    handler may return without serving its inner handler ([skip]).
    A [*Mezvaro] used as a handler is in no class: it rebinds the chain. *)
Section HandlerClass.
Variable A : Op -> Prop.
Variable SA : http_ResponseWriter -> http_Request -> SinkOp -> Prop.
Variable skip : Prop.

Fixpoint body_in (b : Body) : Prop :=
  match b with
  | Return => True
  | Do op k => A op /\ forall v, body_in (k v)
  end.

Definition serves (op : SinkOp) (calledNext : bool) : bool :=
  match op with ServeInner _ _ => true | SinkEffect _ => calledNext end.

Fixpoint sink_in (rw : http_ResponseWriter) (rq : http_Request)
    (s : Sink) (calledNext : bool) : Prop :=
  match s with
  | SinkReturn => calledNext = true \/ skip
  | SinkDo op k =>
      SA rw rq op /\ forall v, sink_in rw rq (k v) (serves op calledNext)
  end.

Definition handler_in (h : Handler) : Prop :=
  match h with
  | HandlerFunc hf => forall v, body_in (hf v)
  | Pipeline _ => False
  | WrapHandlerMiddleware middleware =>
      forall rw rq, sink_in rw rq (middleware rw rq) false
  | WrapHandler _ => True
  end.
End HandlerClass.

(** Any handler that is not a pipeline. *)
Definition flat : Handler -> Prop :=
  handler_in (fun _ => True) (fun _ _ _ => True) True.

(** Handlers that never abort: a native one never calls [Abort], a
    decorated one always serves its inner handler. *)
Definition never_aborts : Handler -> Prop :=
  handler_in (fun op => op <> CallAbort) (fun _ _ _ => True) False.

(** Handlers that leave the transport objects and the nested scope alone:
    a native one only works, continues or aborts, a decorated one serves
    its inner handler with the objects it was served with. *)
Definition keeps_objects (op : Op) : Prop :=
  match op with
  | Effect _ | CallNext | CallAbort => True
  | _ => False
  end.

Definition passes_objects (rw : http_ResponseWriter) (rq : http_Request)
    (op : SinkOp) : Prop :=
  match op with
  | SinkEffect _ => True
  | ServeInner rw' rq' => rw' = rw /\ rq' = rq
  end.

Definition quiet : Handler -> Prop := handler_in keeps_objects passes_objects True.

Lemma body_in_weaken (A B : Op -> Prop) (b : Body) :
  (forall op, A op -> B op) -> body_in A b -> body_in B b.
Proof.
  intros HAB. induction b as [|op k IH]; simpl; [done|].
  intros [Hop Hk]. split; [by apply HAB|]. intros v. apply IH, Hk.
Qed.

Lemma sink_in_weaken (SA SB : http_ResponseWriter -> http_Request -> SinkOp -> Prop)
    (skip skip' : Prop) rw rq (s : Sink) :
  (forall op, SA rw rq op -> SB rw rq op) -> (skip -> skip') ->
  forall called, sink_in SA skip rw rq s called -> sink_in SB skip' rw rq s called.
Proof.
  intros HAB Hskip. induction s as [|op k IH]; simpl; intros called.
  - intros [?|?]; [by left|right; auto].
  - intros [Hop Hk]. split; [by apply HAB|]. intros v. apply IH, Hk.
Qed.

Lemma handler_in_weaken (A B : Op -> Prop)
    (SA SB : http_ResponseWriter -> http_Request -> SinkOp -> Prop)
    (skip skip' : Prop) (h : Handler) :
  (forall op, A op -> B op) -> (forall rw rq op, SA rw rq op -> SB rw rq op) ->
  (skip -> skip') ->
  handler_in A SA skip h -> handler_in B SB skip' h.
Proof.
  intros HA HS Hskip. destruct h as [hf|m|mw|hd]; simpl; [|done| |done].
  - intros Hb v. eapply body_in_weaken; [exact HA|apply Hb].
  - intros Hs rw rq. eapply sink_in_weaken; [apply HS|exact Hskip|apply Hs].
Qed.

Lemma never_aborts_flat h : never_aborts h -> flat h.
Proof. apply handler_in_weaken; done. Qed.

Lemma quiet_flat h : quiet h -> flat h.
Proof. apply handler_in_weaken; done. Qed.

(** * Running chains: basic facts *)

Lemma chain_at_Some l i h :
  chain_at l i = Some h -> 0 <= i < Z.of_nat (length l) /\ l !! Z.to_nat i = Some h.
Proof.
  unfold chain_at. destruct (Z.ltb_spec i 0) as [|Hi]; [done|].
  intros Hl. split; [|done]. apply lookup_lt_Some in Hl. lia.
Qed.

Lemma chain_at_in_range l i :
  0 <= i < Z.of_nat (length l) -> exists h, chain_at l i = Some h.
Proof.
  intros Hi. unfold chain_at. destruct (Z.ltb_spec i 0) as [|_]; [lia|].
  apply lookup_lt_is_Some_2. lia.
Qed.

Lemma chain_at_Forall (P : Handler -> Prop) l i h :
  Forall P l -> chain_at l i = Some h -> P h.
Proof.
  intros HP Hh. apply chain_at_Some in Hh as [_ Hh].
  by eapply Forall_lookup_1.
Qed.

Lemma drive_S st fuel s w :
  drive st (S fuel) s w =
  if index (ctx w) <? s then
    match chain_at (handlerChain (ctx w)) (index (ctx w)) with
    | None => Panic w
    | Some h =>
        match Handle_with st (Next st fuel) h (note (Invoked (index (ctx w))) w) with
        | Done w' => drive st fuel s (incr_index w')
        | r => r
        end
    end
  else Done w.
Proof. reflexivity. Qed.

Lemma run_effects_ctx l w : ctx (run_effects l w) = ctx w.
Proof.
  revert w. induction l as [|n l IH]; intros w; simpl; [done|].
  unfold run_effects in *. simpl. by rewrite IH.
Qed.

Lemma run_effects_trace l w :
  trace (run_effects l w) = trace w ++ map Did l.
Proof.
  revert w. induction l as [|n l IH]; intros w; simpl.
  - by rewrite app_nil_r.
  - unfold run_effects in *. simpl. rewrite IH. simpl. by rewrite <- app_assoc.
Qed.

Lemma CallNext_dec (op : Op) : {op = CallNext} + {op <> CallNext}.
Proof. destruct op; (by left) || (by right). Defined.

Lemma do_op_prim next op w : op <> CallNext -> do_op next op w = Done (prim op w).
Proof. by destruct op. Qed.

Lemma calls_app t1 t2 : calls (t1 ++ t2) = calls t1 ++ calls t2.
Proof.
  induction t1 as [|e t1 IH]; simpl; [done|].
  destruct e; simpl; by rewrite IH.
Qed.

(** * Invariants of a run

    A run over a fixed chain of handlers of one class keeps a pair of
    invariants: [I] holds whenever control is in a handler or back with the
    caller of [Next], [I'] holds at the head of the driver's loop, where
    the cursor already points to a handler that is not yet invoked.  The
    result holds for every amount of fuel and every outcome. *)
Section Safety.
Variable st : Store.
Variable A : Op -> Prop.
Variable SA : http_ResponseWriter -> http_Request -> SinkOp -> Prop.
Variable skip : Prop.
Variable ch : list Handler.
Variables I I' : World -> Prop.

Hypothesis ch_in : Forall (handler_in A SA skip) ch.
Hypothesis I_chain : forall w, I w -> handlerChain (ctx w) = ch.
Hypothesis I'_chain : forall w, I' w -> handlerChain (ctx w) = ch.
Hypothesis I_enter : forall w, I w -> I' (incr_index (note Continued w)).
Hypothesis I_invoke : forall w h,
  I' w -> chain_at ch (index (ctx w)) = Some h ->
  I (note (Invoked (index (ctx w))) w).
Hypothesis I_step : forall w, I w -> I' (incr_index w).
Hypothesis I_exit : forall w,
  I' w -> Z.of_nat (length ch) <= index (ctx w) -> I w.
Hypothesis I_prim : forall op w, A op -> op <> CallNext -> I w -> I (prim op w).
Hypothesis I_did : forall n w, I w -> I (note (Did n) w).
Hypothesis I_serve : forall w0 w rw rq,
  I w0 -> I w ->
  SA (Response (ctx w0)) (Request (ctx w0)) (ServeInner rw rq) ->
  I (on_ctx (set_Request rq) (on_ctx (set_Response rw) w)).
Hypothesis I_abort : skip -> forall w, I w -> I (abort_op w).

Definition holds_after (r : Result) : Prop :=
  match r with
  | Done w => I w
  | Panic w | OutOfFuel w => I w \/ I' w
  end.

Section Handlers.
Variable next : World -> Result.
Hypothesis next_safe : forall w, I w -> holds_after (next w).

Lemma run_body_safe b w :
  body_in A b -> I w -> holds_after (run_body next b w).
Proof using next_safe I_prim.
  revert w. induction b as [|op k IH]; intros w Hb Hw; simpl; [done|].
  destruct Hb as [Hop Hk].
  destruct (CallNext_dec op) as [->|Hne].
  - simpl. pose proof (next_safe w Hw) as Hn.
    destruct (next w) as [w'|w'|w']; simpl in *; [|done|done].
    by apply IH.
  - rewrite do_op_prim by done.
    apply IH; [done|]. by apply I_prim.
Qed.

Lemma run_sink_safe w0 s called w :
  I w0 ->
  sink_in SA skip (Response (ctx w0)) (Request (ctx w0)) s called ->
  I w -> holds_after (run_sink next s called w).
Proof using next_safe I_did I_serve I_abort.
  intros Hw0. revert called w.
  induction s as [|op k IH]; intros called w Hs Hw; simpl.
  - destruct called; simpl; [done|].
    destruct Hs as [?|Hskip]; [done|]. by apply I_abort.
  - destruct Hs as [Hop Hk]. destruct op as [n|rw rq]; simpl in *.
    + apply IH; [apply Hk|]. by apply I_did.
    + unfold inner_sink.
      pose proof (next_safe _ (I_serve w0 w rw rq Hw0 Hw Hop)) as Hn.
      destruct (next _) as [w'|w'|w']; simpl in *; [|done|done].
      apply IH; [apply Hk|done].
Qed.

Lemma run_effects_safe l w : I w -> I (run_effects l w).
Proof using I_did.
  revert w. induction l as [|n l IH]; intros w Hw; [done|].
  apply IH. by apply I_did.
Qed.

Lemma Handle_with_safe h w :
  handler_in A SA skip h -> I w -> holds_after (Handle_with st next h w).
Proof using next_safe I_prim I_did I_serve I_abort.
  destruct h as [hf|m|mw|hd]; simpl; intros Hh Hw.
  - by apply run_body_safe.
  - done.
  - by apply (run_sink_safe w).
  - apply next_safe. by apply run_effects_safe.
Qed.
End Handlers.

Lemma drive_safe fuel :
  forall w, I' w -> holds_after (drive st fuel (Z.of_nat (length ch)) w).
Proof using All.
  induction fuel as [|fuel IH]; intros w Hw; [by right|].
  rewrite drive_S.
  destruct (Z.ltb_spec (index (ctx w)) (Z.of_nat (length ch))) as [Hlt|Hge].
  - rewrite (I'_chain w Hw).
    destruct (chain_at ch (index (ctx w))) as [h|] eqn:Hh; [|by right].
    assert (holds_after
              (Handle_with st (Next st fuel) h (note (Invoked (index (ctx w))) w)))
      as Hr.
    { apply Handle_with_safe.
      - intros w1 Hw1. unfold Next. rewrite (I_chain w1 Hw1).
        apply IH. by apply I_enter.
      - by eapply chain_at_Forall.
      - by eapply I_invoke. }
    destruct (Handle_with _ _ _ _) as [w'|w'|w']; simpl in Hr; [|done|done].
    apply IH. by apply I_step.
  - by apply I_exit.
Qed.

Lemma Next_safe fuel w : I w -> holds_after (Next st fuel w).
Proof using All.
  intros Hw. unfold Next. rewrite (I_chain w Hw).
  apply drive_safe. by apply I_enter.
Qed.
End Safety.

(** * Termination of a run

    Over a chain without pipelines [Next] returns, given enough fuel, with
    the cursor past the end of the chain.  Where handlers of the class may
    abort, the chain must be short enough for the sentinel to lie at or
    beyond its end.  A relation [R] between the state at a call and the
    state at its return is carried along. *)
Section Termination.
Variable st : Store.
Variable A : Op -> Prop.
Variable SA : http_ResponseWriter -> http_Request -> SinkOp -> Prop.
Variable skip : Prop.
Variable ch : list Handler.
Variable R : World -> World -> Prop.

Hypothesis ch_in : Forall (handler_in A SA skip) ch.
Hypothesis capacity :
  skip \/ A CallAbort -> Z.of_nat (length ch) <= MaxHandlers + 1.
Hypothesis R_refl : forall w, R w w.
Hypothesis R_trans : forall w1 w2 w3, R w1 w2 -> R w2 w3 -> R w1 w3.
Hypothesis R_prim : forall op w, A op -> op <> CallNext -> R w (prim op w).
Hypothesis R_did : forall n w, R w (note (Did n) w).
Hypothesis R_serve : forall rw rq w,
  R w (on_ctx (set_Request rq) (on_ctx (set_Response rw) w)).
Hypothesis R_abort : skip -> forall w, R w (abort_op w).
Hypothesis R_enter : forall w, R w (incr_index (note Continued w)).
Hypothesis R_loop : forall w w',
  R (note (Invoked (index (ctx w))) w) w' -> R w (incr_index w').

(** [r] returns for all sufficient fuel, always in the same state, which
    is on the chain [ch] with the cursor at [p] or later. *)
Definition returns (r : nat -> Result) (w : World) (p : Z) : Prop :=
  exists (f0 : nat) (w' : World),
    (forall f, (f0 <= f)%nat -> r f = Done w') /\
    handlerChain (ctx w') = ch /\ p <= index (ctx w') /\ R w w'.

Lemma returns_weaken r w p q : returns r w p -> q <= p -> returns r w q.
Proof.
  intros (f0 & w' & Hr & Hc & Hp & HR) Hq.
  exists f0, w'. repeat split; [done..|lia|done].
Qed.

Lemma returns_after r w0 w p : R w0 w -> returns r w p -> returns r w0 p.
Proof using R_trans.
  intros H0 (f0 & w' & Hr & Hc & Hp & HR).
  exists f0, w'. repeat split; [done..|]. by eapply R_trans.
Qed.

Lemma R_run_effects l w : R w (run_effects l w).
Proof using R_refl R_trans R_did.
  revert w. induction l as [|n l IH]; intros w; [apply R_refl|].
  eapply R_trans; [apply (R_did n)|apply IH].
Qed.

Section Handlers.
Variable p : Z.
Hypothesis p_cap : skip \/ A CallAbort -> p <= MaxHandlers.
Hypothesis Next_returns_later : forall w,
  handlerChain (ctx w) = ch -> p <= index (ctx w) ->
  returns (fun f => Next st f w) w p.

Lemma prim_keeps op w :
  A op -> op <> CallNext ->
  handlerChain (ctx w) = ch -> p <= index (ctx w) ->
  handlerChain (ctx (prim op w)) = ch /\ p <= index (ctx (prim op w)).
Proof using p_cap.
  intros Hop Hne Hc Hp. destruct op; simpl; try done.
  split; [done|]. apply p_cap. by right.
Qed.

Lemma run_body_returns b :
  forall w, body_in A b ->
    handlerChain (ctx w) = ch -> p <= index (ctx w) ->
    returns (fun f => run_body (Next st f) b w) w p.
Proof using p_cap Next_returns_later R_refl R_trans R_prim.
  induction b as [|op k IH]; intros w Hb Hc Hp.
  - exists 0%nat, w. by repeat split.
  - destruct Hb as [Hop Hk]. destruct (CallNext_dec op) as [->|Hne].
    + destruct (Next_returns_later w Hc Hp) as (f1 & w1 & Hr1 & Hc1 & Hp1 & HR1).
      destruct (IH (view_of w1) w1 (Hk _) Hc1 Hp1)
        as (f2 & w2 & Hr2 & Hc2 & Hp2 & HR2).
      exists (Nat.max f1 f2), w2. repeat split; [|done..|by eapply R_trans].
      intros f Hf. simpl. rewrite Hr1 by lia. apply Hr2. lia.
    + destruct (prim_keeps op w Hop Hne Hc Hp) as [Hc1 Hp1].
      destruct (IH (view_of (prim op w)) (prim op w) (Hk _) Hc1 Hp1)
        as (f2 & w2 & Hr2 & Hc2 & Hp2 & HR2).
      exists f2, w2. repeat split; [|done..|].
      * intros f Hf. simpl. rewrite do_op_prim by done. by apply Hr2.
      * eapply R_trans; [by apply R_prim|done].
Qed.

Lemma run_sink_returns rw0 rq0 s :
  forall called w, sink_in SA skip rw0 rq0 s called ->
    handlerChain (ctx w) = ch -> p <= index (ctx w) ->
    returns (fun f => run_sink (Next st f) s called w) w p.
Proof using p_cap Next_returns_later R_refl R_trans R_did R_serve R_abort.
  induction s as [|op k IH]; intros called w Hs Hc Hp.
  - destruct called; simpl.
    + exists 0%nat, w. by repeat split.
    + destruct Hs as [?|Hskip]; [done|].
      exists 0%nat, (abort_op w). repeat split; [done..| |by apply R_abort].
      simpl. apply p_cap. by left.
  - destruct Hs as [Hop Hk]. destruct op as [n|rw rq]; simpl in *.
    + eapply returns_after; [apply (R_did n)|].
      apply IH; [apply Hk|done..].
    + unfold inner_sink.
      destruct (Next_returns_later
                  (on_ctx (set_Request rq) (on_ctx (set_Response rw) w)))
        as (f1 & w1 & Hr1 & Hc1 & Hp1 & HR1); [done..|].
      destruct (IH (view_of w1) true w1 (Hk _) Hc1 Hp1)
        as (f2 & w2 & Hr2 & Hc2 & Hp2 & HR2).
      exists (Nat.max f1 f2), w2. repeat split; [|done..|].
      * intros f Hf. rewrite Hr1 by lia. apply Hr2. lia.
      * eapply R_trans; [apply R_serve|]. by eapply R_trans.
Qed.

Lemma Handle_with_returns h w :
  handler_in A SA skip h ->
  handlerChain (ctx w) = ch -> p <= index (ctx w) ->
  returns (fun f => Handle_with st (Next st f) h w) w p.
Proof using p_cap Next_returns_later R_refl R_trans R_prim R_did R_serve R_abort.
  destruct h as [hf|m|mw|hd]; simpl; intros Hh Hc Hp.
  - by apply run_body_returns.
  - done.
  - by eapply run_sink_returns.
  - eapply returns_after; [apply R_run_effects|].
    apply Next_returns_later; by rewrite run_effects_ctx.
Qed.
End Handlers.

Lemma drive_returns n :
  forall w, handlerChain (ctx w) = ch -> 0 <= index (ctx w) ->
    (Z.to_nat (Z.of_nat (length ch) - index (ctx w)) <= n)%nat ->
    returns (fun f => drive st f (Z.of_nat (length ch)) w) w
            (Z.max (index (ctx w)) (Z.of_nat (length ch))).
Proof using All.
  induction n as [|n IH]; intros w Hc Hi Hn.
  - exists 1%nat, w. repeat split; [|done|lia|done].
    intros [|f] Hf; [lia|]. rewrite drive_S.
    destruct (Z.ltb_spec (index (ctx w)) (Z.of_nat (length ch))); [lia|done].
  - destruct (Z.ltb_spec (index (ctx w)) (Z.of_nat (length ch))) as [Hlt|Hge].
    + destruct (chain_at_in_range ch (index (ctx w))) as [h Hh]; [lia|].
      set (p := index (ctx w)).
      assert (forall w1, handlerChain (ctx w1) = ch -> p <= index (ctx w1) ->
                returns (fun f => Next st f w1) w1 p) as Hnext.
      { intros w1 Hc1 Hp1. unfold Next. rewrite Hc1.
        eapply returns_after; [apply R_enter|].
        eapply returns_weaken; [apply IH|]; simpl; try done; lia. }
      destruct (Handle_with_returns p
                  ltac:(intros; subst p; specialize (capacity ltac:(done)); lia)
                  Hnext h (note (Invoked p) w))
        as (f1 & w1 & Hr1 & Hc1 & Hp1 & HR1);
        [by eapply chain_at_Forall|done|simpl; subst p; lia|].
      destruct (IH (incr_index w1)) as (f2 & w2 & Hr2 & Hc2 & Hp2 & HR2);
        [done|simpl; lia|simpl; lia|].
      exists (S (Nat.max f1 f2)), w2.
      repeat split; [|done|simpl in Hp2; lia|].
      * intros [|f] Hf; [lia|]. rewrite drive_S.
        destruct (Z.ltb_spec (index (ctx w)) (Z.of_nat (length ch))); [|lia].
        rewrite Hc, Hh. fold p. rewrite Hr1 by lia. apply Hr2. lia.
      * eapply R_trans; [|exact HR2]. by apply R_loop.
    + exists 1%nat, w. repeat split; [|done|lia|done].
      intros [|f] Hf; [lia|]. rewrite drive_S.
      destruct (Z.ltb_spec (index (ctx w)) (Z.of_nat (length ch))); [lia|done].
Qed.

End Termination.

(** * Runs in which no handler aborts *)

(** The number of calls of [Next] in a trace. *)
Fixpoint continues (tr : list Event) : Z :=
  match tr with
  | [] => 0
  | Continued :: tr' => 1 + continues tr'
  | _ :: tr' => continues tr'
  end.

Lemma continues_app t1 t2 : continues (t1 ++ t2) = continues t1 + continues t2.
Proof.
  induction t1 as [|e t1 IH]; simpl; [done|].
  destruct e; rewrite IH; lia.
Qed.

Lemma continues_nonneg tr : 0 <= continues tr.
Proof. induction tr as [|e tr IH]; simpl; [done|]. destruct e; lia. Qed.

(** From [w] to [w'] the trace grew by events none of which is an abort,
    and the cursor advanced once for every call of [Next] and once for
    every handler invoked. *)
Definition advanced (w w' : World) : Prop :=
  exists new,
    trace w' = trace w ++ new /\ (Aborted ∉ new) /\
    index (ctx w') = index (ctx w) + Z.of_nat (length (calls new)) + continues new.

Lemma advanced_refl w : advanced w w.
Proof.
  exists []. rewrite app_nil_r. simpl.
  split; [done|]. split; [apply not_elem_of_nil|lia].
Qed.

Lemma advanced_trans w1 w2 w3 : advanced w1 w2 -> advanced w2 w3 -> advanced w1 w3.
Proof.
  intros (n1 & Ht1 & Ha1 & Hi1) (n2 & Ht2 & Ha2 & Hi2).
  exists (n1 ++ n2). rewrite Ht2, Ht1, <- app_assoc. split; [done|].
  split.
  - rewrite elem_of_app. tauto.
  - rewrite calls_app, length_app, continues_app. lia.
Qed.

Lemma advanced_one (e : Event) (w w' : World) :
  trace w' = trace w ++ [e] -> e <> Aborted ->
  index (ctx w') = index (ctx w) + Z.of_nat (length (calls [e])) + continues [e] ->
  advanced w w'.
Proof.
  intros Ht He Hi. exists [e]. split; [done|]. split; [|done].
  rewrite list_elem_of_singleton. congruence.
Qed.

Lemma advanced_same (w w' : World) :
  trace w' = trace w -> index (ctx w') = index (ctx w) -> advanced w w'.
Proof.
  intros Ht Hi. exists []. rewrite app_nil_r. simpl.
  split; [done|]. split; [apply not_elem_of_nil|lia].
Qed.

Section NeverAborts.
Variable st : Store.
Variable ch : list Handler.
Hypothesis ch_in : Forall never_aborts ch.

(** What is still to be invoked when control is in a handler, or with
    the caller of [Next]: the positions after the cursor. *)
Definition pending (w : World) : list Z :=
  seqZ (index (ctx w) + 1) (Z.of_nat (length ch) - (index (ctx w) + 1)).

(** At the head of the loop the position at the cursor is pending too. *)
Definition pending' (w : World) : list Z :=
  seqZ (index (ctx w)) (Z.of_nat (length ch) - index (ctx w)).

Lemma never_aborting_drive w :
  handlerChain (ctx w) = ch -> 0 <= index (ctx w) ->
  returns ch advanced (fun f => drive st f (Z.of_nat (length ch)) w) w
          (Z.max (index (ctx w)) (Z.of_nat (length ch))).
Proof using ch_in.
  intros Hc Hi.
  apply (drive_returns st (fun op => op <> CallAbort) (fun _ _ _ => True) False
           ch advanced) with (n := Z.to_nat (Z.of_nat (length ch) - index (ctx w)));
    try done.
  - intros [[]|Hn]; done.
  - apply advanced_refl.
  - apply advanced_trans.
  - intros op w0 Hop Hne. destruct op; try done.
    + apply (advanced_one (Did n)); simpl; [done|done|lia].
    + by apply advanced_same.
    + by apply advanced_same.
    + by apply advanced_same.
    + by apply advanced_same.
    + by apply advanced_same.
  - intros n w0. apply (advanced_one (Did n)); simpl; [done|done|lia].
  - intros rw rq w0. by apply advanced_same.
  - intros w0. apply (advanced_one Continued); simpl; [done|done|lia].
  - intros w0 w' (new & Ht & Ha & Hi'). simpl in Ht.
    exists (Invoked (index (ctx w0)) :: new). simpl.
    split; [by rewrite Ht, <- app_assoc|].
    split; [|simpl in Hi'; lia].
    rewrite elem_of_cons. intros [?|?]; done.
Qed.

Lemma never_aborting_calls (T : list Z) fuel w w' :
  handlerChain (ctx w) = ch -> calls (trace w) ++ pending w = T ->
  Next st fuel w = Done w' ->
  calls (trace w') ++ pending w' = T.
Proof using ch_in.
  intros Hc HT Hr.
  assert (forall a b c d : Z, a = c -> b = d -> seqZ a b = seqZ c d) as Hseq
    by (by intros a b c d -> ->).
  assert (holds_after
            (fun w => handlerChain (ctx w) = ch /\ calls (trace w) ++ pending w = T)
            (fun w => handlerChain (ctx w) = ch /\ calls (trace w) ++ pending' w = T)
            (Next st fuel w)) as Hsafe.
  { eapply (Next_safe st (fun op => op <> CallAbort) (fun _ _ _ => True) False ch).
    - exact ch_in.
    - by intros w0 [? _].
    - by intros w0 [? _].
    - intros w0 [Hc0 H0]. split; [done|].
      rewrite <- H0. simpl. rewrite calls_app. simpl. by rewrite app_nil_r.
    - intros w0 h [Hc0 H0] Hh. split; [done|].
      apply chain_at_Some in Hh as [Hi _].
      rewrite <- H0. unfold pending, pending'. simpl.
      rewrite calls_app, <- app_assoc. simpl. f_equal.
      rewrite (seqZ_cons (index (ctx w0))) by lia.
      f_equal. apply Hseq; lia.
    - intros w0 [Hc0 H0]. by split.
    - intros w0 [Hc0 H0] Hge. split; [done|].
      rewrite <- H0. unfold pending, pending'.
      rewrite !seqZ_nil by lia. done.
    - intros op w0 Hop Hne [Hc0 H0].
      destruct op; try done; simpl; (split; [done|]);
        rewrite <- H0; unfold pending; simpl; try done.
      rewrite calls_app. simpl. by rewrite app_nil_r.
    - intros n w0 [Hc0 H0]. split; [done|].
      rewrite <- H0. unfold pending. simpl.
      rewrite calls_app. simpl. by rewrite app_nil_r.
    - intros w0 w1 rw rq _ [Hc1 H1] _. by split.
    - intros [].
    - by split. }
  rewrite Hr in Hsafe. exact (proj2 Hsafe).
Qed.

(** A run that starts anywhere on the chain returns, having invoked
    exactly the positions after the cursor, in order, once each; the
    cursor ends at the length of the chain plus the number of calls of
    [Next] made by the handlers. *)
Lemma never_aborting_run w :
  handlerChain (ctx w) = ch -> -1 <= index (ctx w) ->
  exists (f0 : nat) (w' : World) (new : list Event),
    (forall f, (f0 <= f)%nat -> Next st f w = Done w') /\
    handlerChain (ctx w') = ch /\
    trace w' = trace w ++ Continued :: new /\ (Aborted ∉ new) /\
    calls new = pending w /\
    index (ctx w') =
      index (ctx w) + 1 + Z.of_nat (length (pending w)) + continues new.
Proof using ch_in.
  intros Hc Hi.
  destruct (never_aborting_drive (incr_index (note Continued w)))
    as (f0 & w' & Hr & Hc' & Hp & new & Ht & Ha & Hidx); [done|simpl; lia|].
  assert (forall f, (f0 <= f)%nat -> Next st f w = Done w') as Hr'.
  { intros f Hf. unfold Next. rewrite Hc. by apply Hr. }
  simpl in Ht, Hidx, Hp. rewrite <- app_assoc in Ht. simpl in Ht.
  pose proof (never_aborting_calls _ f0 w w' Hc eq_refl (Hr' f0 (le_n _))) as HT.
  rewrite Ht, calls_app, <- app_assoc in HT. simpl in HT.
  apply app_inv_head in HT.
  unfold pending in HT at 1. rewrite seqZ_nil, app_nil_r in HT by lia.
  exists f0, w', new. repeat split; try done.
  rewrite <- HT. lia.
Qed.
End NeverAborts.

(** * The chain driver *)

Example TestNextWithoutExplicitCall :
  Next [] 5 (mkWorld (newContext response1 request1 [tick 1; tick 2] []) []) =
  Done (mkWorld (mkContext response1 request1 [tick 1; tick 2] 2 [] Background)
                [Continued; Invoked 0; Did 1; Invoked 1; Did 2]).
Proof. reflexivity. Qed.

Example TestNext :
  Next [] 5 (mkWorld (newContext response1 request1 [tick_then_next 1; tick_then_next 2] []) []) =
  Done (mkWorld (mkContext response1 request1 [tick_then_next 1; tick_then_next 2] 4 [] Background)
                [Continued; Invoked 0; Did 1; Continued; Invoked 1; Did 2; Continued]).
Proof. reflexivity. Qed.

Example TestAbort :
  Next [] 5 (mkWorld (newContext response1 request1 [abort_then_tick 1; tick 2] []) []) =
  Done (mkWorld (mkContext response1 request1 [abort_then_tick 1; tick 2] 32768 [] Background)
                [Continued; Invoked 0; Aborted; Did 1]).
Proof. reflexivity. Qed.



(** * Abort *)




Section Aborting.
Variable st : Store.
Variable ch : list Handler.
Hypothesis ch_flat : Forall flat ch.








End Aborting.



(** [math.MaxInt32]: the value of [math.MaxInt] where [int] has 32 bits,
    the least it takes.  A cursor below it is below [math.MaxInt] on every
    platform, so that [c.index++] does not wrap and the cursor of the code
    is the integer of this development. *)
Definition MaxInt32 : Z := 2147483647.








(** * A pipeline as a handler *)


Section Quiet.
Variable st : Store.
Variable ch : list Handler.
Hypothesis ch_quiet : Forall quiet ch.

Definition same_objects (w w' : World) : Prop :=
  Response (ctx w') = Response (ctx w) /\
  Request (ctx w') = Request (ctx w) /\
  netCtx (ctx w') = netCtx (ctx w) /\
  urlParams (ctx w') = urlParams (ctx w).

Lemma quiet_keeps fuel w :
  handlerChain (ctx w) = ch ->
  same_objects w (world_of (Next st fuel w)).
Proof using ch_quiet.
  intros Hc.
  set (J := fun w' : World => handlerChain (ctx w') = ch /\ same_objects w w').
  assert (holds_after J J (Next st fuel w)) as Hsafe.
  { eapply (Next_safe st keeps_objects passes_objects True ch J J).
    - exact ch_quiet.
    - by intros w0 [? _].
    - by intros w0 [? _].
    - by intros w0 [? ?].
    - by intros w0 h [? ?] _.
    - by intros w0 [? ?].
    - done.
    - intros op w0 Hop Hne [? ?]. by destruct op.
    - by intros n w0 [? ?].
    - intros w0 w1 rw rq [_ (H0 & H0' & _)] [Hc1 (H1 & H1' & H1'' & H1''')] [-> ->].
      split; [done|]. unfold same_objects. simpl. by rewrite H0, H0'.
    - by intros _ w0 [? ?].
    - by split. }
  destruct (Next st fuel w); simpl in *; unfold J in *; tauto.
Qed.
End Quiet.

Example TestHandle :
  Handle store1 5 0%nat
    (mkWorld (mkContext response1 request1 [] 0 [] (valueCtx Background 1 2)) []) =
  Done (mkWorld (mkContext response1 request1 [tick 1; tick 2] 2 []
                           (valueCtx Background 1 2))
                [Continued; Invoked 0; Did 1; Invoked 1; Did 2]).
Proof. reflexivity. Qed.

(** C6. [Handle] of a pipeline works on the context it is given: it runs
    [Next] on that context with the chain rebound to the resolved chain of
    the pipeline and the cursor set to [-1], the response, the request,
    the nested scope, the URL parameters (and the trace) being as they
    were.  If the handlers of the resolved chain leave these objects alone,
    they are still the same when [Handle] is done, whatever the fuel and
    the outcome; if none of them aborts, [Handle] returns after invoking
    the whole resolved chain, in order, from its first handler. *)
Theorem Handle_reuses_context (st : Store) (m : loc) (chain : list Handler)
    (w : World) (Hm : wholeChain st m = Some chain) :
  let w0 := on_ctx (set_index (-1)) (on_ctx (set_handlerChain chain) w) in
  (forall fuel, Handle st fuel m w = Next st fuel w0) /\
  (Response (ctx w0) = Response (ctx w) /\ Request (ctx w0) = Request (ctx w) /\
   netCtx (ctx w0) = netCtx (ctx w) /\ urlParams (ctx w0) = urlParams (ctx w) /\
   trace w0 = trace w) /\
  (handlerChain (ctx w0) = chain /\ index (ctx w0) = -1) /\
  (Forall quiet chain ->
   forall fuel,
     Response (ctx (world_of (Handle st fuel m w))) = Response (ctx w) /\
     Request (ctx (world_of (Handle st fuel m w))) = Request (ctx w) /\
     netCtx (ctx (world_of (Handle st fuel m w))) = netCtx (ctx w)) /\
  (Forall never_aborts chain ->
   exists (fuel : nat) (w' : World) (new : list Event),
     (forall f, (fuel <= f)%nat -> Handle st f m w = Done w') /\
     trace w' = trace w ++ Continued :: new /\
     calls new = seqZ 0 (Z.of_nat (length chain))).
Proof.
  intros w0.
  assert (forall fuel, Handle st fuel m w = Next st fuel w0) as HH.
  { intros fuel. unfold Handle, Handle_pipeline. by rewrite Hm. }
  split; [done|]. split; [done|]. split; [done|]. split.
  - intros Hq fuel. rewrite HH.
    destruct (quiet_keeps st chain Hq fuel w0 eq_refl) as (H1 & H2 & H3 & _).
    by rewrite H1, H2, H3.
  - intros Hna.
    destruct (never_aborting_run st chain Hna w0)
      as (f0 & w' & new & Hr & _ & Ht & _ & Hcalls & _); [done|simpl; lia|].
    exists f0, w', new. split; [|split; [done|]].
    + intros f Hf. rewrite HH. by apply Hr.
    + rewrite Hcalls. unfold pending. simpl. f_equal. lia.
Qed.

Lemma Handle_reuses_context_witness :
  wholeChain store1 0%nat = Some [tick 1; tick 2] /\
  forall fuel,
    Handle store1 fuel 0%nat
      (mkWorld (mkContext response1 request1 [] 0 [] (valueCtx Background 1 2)) []) =
    Next store1 fuel
      (mkWorld (mkContext response1 request1 [tick 1; tick 2] (-1) []
                          (valueCtx Background 1 2)) []).
Proof.
  split; [reflexivity|].
  exact (proj1 (Handle_reuses_context store1 0%nat [tick 1; tick 2]
                  (mkWorld (mkContext response1 request1 [] 0 []
                                      (valueCtx Background 1 2)) [])
                  eq_refl)).
Defined.

(** * The adapter for decorators *)

(** The foreign handler never serves its inner handler. *)
Fixpoint never_serves (s : Sink) : Prop :=
  match s with
  | SinkReturn => True
  | SinkDo (SinkEffect _) k => forall v, never_serves (k v)
  | SinkDo (ServeInner _ _) _ => False
  end.

Lemma run_effects_cons n l w :
  run_effects (n :: l) w = run_effects l (note (Did n) w).
Proof. reflexivity. Qed.


Lemma calls_map_Did l : calls (map Did l) = [].
Proof. induction l; simpl; done. Qed.

Lemma continues_map_Did l : continues (map Did l) = 0.
Proof. induction l; simpl; done. Qed.

Definition silent_decorator : http_ResponseWriter -> http_Request -> Sink :=
  fun _ _ => SinkDo (SinkEffect 1) (fun _ => SinkReturn).

Example TestWrapHandlerMiddlewareAbort :
  Next [] 5 (mkWorld (newContext response1 request1
                        [WrapHandlerMiddleware silent_decorator; tick 2] []) []) =
  Done (mkWorld (mkContext response1 request1
                   [WrapHandlerMiddleware silent_decorator; tick 2] 32768 [] Background)
                [Continued; Invoked 0; Did 1; Aborted]).
Proof. reflexivity. Qed.

(** A chain of [MaxHandlers + 2] handlers that begins with a decorator
    whose handler does not serve its inner handler. *)
Definition too_long_decorated : list Handler :=
  WrapHandlerMiddleware silent_decorator
    :: replicate (Z.to_nat (MaxHandlers + 1)) (tick 0).

(** C7, as stated, fails: in a drive over [too_long_decorated] the adapter
    aborts, and the driver still invokes the handler at position 32768. *)
Lemma decorator_abort_does_not_halt_long_chain :
  let w := mkWorld (newContext response1 request1 too_long_decorated []) [] in
  Z.of_nat (length too_long_decorated) = MaxHandlers + 2 /\
  (forall rw rq, never_serves (silent_decorator rw rq)) /\
  is_Done (Next [] 4 w) = true /\
  trace (world_of (Next [] 4 w)) =
    [Continued; Invoked 0; Did 1; Aborted; Invoked 32768; Did 0] /\
  calls (trace (world_of (Next [] 4 w))) <> calls (trace w) ++ [index (ctx w) + 1].
Proof.
  intros w. split; [reflexivity|]. split; [done|]. split; [reflexivity|].
  split; [reflexivity|].
  assert (calls (trace (world_of (Next [] 4 w))) = [0; 32768]) as -> by reflexivity.
  discriminate.
Qed.

(** In the run that starts in [w], the foreign handler [s] returns without
    serving its inner handler. *)
Fixpoint returns_without_serving (s : Sink) (w : World) : Prop :=
  match s with
  | SinkReturn => True
  | SinkDo (SinkEffect n) k =>
      returns_without_serving (k (view_of (note (Did n) w))) (note (Did n) w)
  | SinkDo (ServeInner _ _) _ => False
  end.

Lemma never_serves_returns_without_serving s :
  never_serves s -> forall w, returns_without_serving s w.
Proof.
  induction s as [|op k IH]; intros Hs w; [done|].
  destruct op as [n|rw rq]; [|done]. simpl in *. apply IH, Hs.
Qed.

Lemma run_sink_without_serving s :
  forall w, returns_without_serving s w ->
  exists l, forall next called,
    run_sink next s called w =
    Done (if called then run_effects l w else abort_op (run_effects l w)).
Proof.
  induction s as [|op k IH]; intros w Hs.
  - exists []. intros next called. by destruct called.
  - destruct op as [n|rw rq]; [|done]. simpl in Hs.
    destruct (IH (view_of (note (Did n) w)) (note (Did n) w) Hs) as [l Hl].
    exists (n :: l). intros next called. simpl. by rewrite Hl.
Qed.

(** A decorator that lets the first request through and answers the
    second itself. *)
Definition selective_decorator : http_ResponseWriter -> http_Request -> Sink :=
  fun rw rq =>
    if Nat.eqb rq request1 then SinkDo (ServeInner rw rq) (fun _ => SinkReturn)
    else SinkDo (SinkEffect 1) (fun _ => SinkReturn).

(** C7, amended.  If, in a run, the handler returned by a decorator
    returns without serving its inner handler, the adapted handler returns
    with the context aborted, having called neither [Next] nor any
    handler.  In a drive over a chain of at most [MaxHandlers + 1] handlers
    that reaches this handler, it is the last one invoked: [Next] returns
    with the context aborted and nothing downstream was invoked. *)
Theorem decorator_abort_inferred (st : Store)
    (middleware : http_ResponseWriter -> http_Request -> Sink) :
  (forall w : World,
     returns_without_serving (middleware (Response (ctx w)) (Request (ctx w))) w ->
     exists w' : World,
       (forall next, Handle_with st next (WrapHandlerMiddleware middleware) w = Done w') /\
       IsAborted (ctx w') = true /\
       calls (trace w') = calls (trace w) /\
       continues (trace w') = continues (trace w))
  /\
  (forall (chain : list Handler) (w : World) (fuel : nat),
     Z.of_nat (length chain) <= MaxHandlers + 1 ->
     handlerChain (ctx w) = chain ->
     chain_at chain (index (ctx w) + 1) = Some (WrapHandlerMiddleware middleware) ->
     returns_without_serving
       (middleware (Response (ctx w)) (Request (ctx w)))
       (note (Invoked (index (ctx w) + 1)) (incr_index (note Continued w))) ->
     exists w' : World,
       Next st (S (S fuel)) w = Done w' /\
       IsAborted (ctx w') = true /\
       calls (trace w') = calls (trace w) ++ [index (ctx w) + 1]).
Proof.
  split.
  - intros w Hsilent.
    destruct (run_sink_without_serving _ w Hsilent) as [e He].
    exists (abort_op (run_effects e w)). split; [|split; [done|split]].
    + intros next. simpl. by rewrite He.
    + simpl. rewrite run_effects_trace, !calls_app, calls_map_Did. simpl.
      by rewrite !app_nil_r.
    + simpl. rewrite run_effects_trace, !continues_app, continues_map_Did. simpl. lia.
  - intros chain w fuel Hcap Hc Hnext Hsilent.
    pose proof (chain_at_Some _ _ _ Hnext) as [Hi _].
    set (w1 := incr_index (note Continued w)) in *.
    set (w2 := note (Invoked (index (ctx w) + 1)) w1) in *.
    destruct (run_sink_without_serving _ w2 Hsilent) as [e He].
    exists (incr_index (abort_op (run_effects e w2))).
    split; [|split; [done|]].
    + unfold Next. rewrite Hc. fold w1. rewrite drive_S.
      destruct (Z.ltb_spec (index (ctx w1)) (Z.of_nat (length chain))) as [_|Hge];
        [|simpl in Hge; lia].
      replace (handlerChain (ctx w1)) with chain by done.
      replace (index (ctx w1)) with (index (ctx w) + 1) by done.
      rewrite Hnext. simpl Handle_with. fold w1.
      change (note (Invoked (index (ctx w) + 1)) w1) with w2.
      rewrite He. rewrite drive_S.
      destruct (Z.ltb_spec (index (ctx (incr_index (abort_op (run_effects e w2)))))
                  (Z.of_nat (length chain))) as [Hlt|_]; [|done].
      simpl in Hlt. lia.
    + simpl. rewrite run_effects_trace. simpl.
      rewrite !calls_app, calls_map_Did. simpl. by rewrite !app_nil_r.
Qed.

Lemma decorator_abort_inferred_witness :
  returns_without_serving (selective_decorator response1 request2)
    (note (Invoked (-1 + 1)) (incr_index (note Continued
       (mkWorld (newContext response1 request2
                   [WrapHandlerMiddleware selective_decorator; tick 2] []) [])))) /\
  exists w' : World,
    Next [] 2 (mkWorld (newContext response1 request2
                          [WrapHandlerMiddleware selective_decorator; tick 2] []) [])
    = Done w' /\
    IsAborted (ctx w') = true /\
    calls (trace w') = [] ++ [-1 + 1].
Proof.
  assert (returns_without_serving (selective_decorator response1 request2)
            (note (Invoked (-1 + 1)) (incr_index (note Continued
               (mkWorld (newContext response1 request2
                           [WrapHandlerMiddleware selective_decorator; tick 2] []) [])))))
    as Hs by exact I.
  assert (Z.of_nat (length [WrapHandlerMiddleware selective_decorator; tick 2])
          <= MaxHandlers + 1) as Hcap by (unfold MaxHandlers; simpl; lia).
  split; [exact Hs|].
  exact (proj2 (decorator_abort_inferred [] selective_decorator)
           [WrapHandlerMiddleware selective_decorator; tick 2]
           (mkWorld (newContext response1 request2
                       [WrapHandlerMiddleware selective_decorator; tick 2] []) [])
           0%nat Hcap eq_refl eq_refl Hs).
Defined.


(** Handlers under which a context that holds [rw'] and [rq'] keeps them:
    a native one does not assign the two fields, a decorated one serves
    its inner handler with the objects it was served with, or with [rw']
    and [rq']. *)
Definition passes_or_installs (rw' : http_ResponseWriter) (rq' : http_Request)
    (rw : http_ResponseWriter) (rq : http_Request) (op : SinkOp) : Prop :=
  match op with
  | SinkEffect _ => True
  | ServeInner a b => (a = rw /\ b = rq) \/ (a = rw' /\ b = rq')
  end.

Definition installs (rw' : http_ResponseWriter) (rq' : http_Request)
    : Handler -> Prop :=
  handler_in keeps_objects (passes_or_installs rw' rq') True.

Lemma quiet_installs rw' rq' h : quiet h -> installs rw' rq' h.
Proof.
  apply handler_in_weaken; [done| |done].
  intros rw rq [n|a b]; simpl; [done|]. by left.
Qed.



Section Installed.
Variable st : Store.
Variable ch : list Handler.
Variable rw' : http_ResponseWriter.
Variable rq' : http_Request.
Hypothesis ch_in : Forall (installs rw' rq') ch.




End Installed.

Definition replacing_decorator : http_ResponseWriter -> http_Request -> Sink :=
  fun _ _ => SinkDo (ServeInner response2 request2) (fun _ => SinkReturn).

Example TestWrapHandlerMiddlewareReplaceResponseRequest :
  Next [] 5 (mkWorld (newContext response1 request1
                        [WrapHandlerMiddleware replacing_decorator; tick 2] []) []) =
  Done (mkWorld (mkContext response2 request2
                   [WrapHandlerMiddleware replacing_decorator; tick 2] 3 [] Background)
                [Continued; Invoked 0; Continued; Invoked 1; Did 2]).
Proof. reflexivity. Qed.



(** * The precompiled entry point *)

(** C9. For a pipeline [m] of a well-formed store and a last handler [h],
    [H] returns a closure over the resolved chain of [m] followed by [h];
    it captures the same chain whether it is called before or after other
    pipelines are created.  Serving a request through the closure is the
    same computation, with the same outcome, final context and trace, as
    [ServeHTTP] on the pipeline [m.Fork(h)], which resolves the chain at
    each request. *)
Theorem H_is_ServeHTTP_of_fork (st : Store) (m : loc) (h : Handler)
    (Hwf : wf_store st) (Hm : (m < length st)%nat) :
  exists wholeChain_h : list Handler,
    H st m h = Some wholeChain_h /\
    let st' := (Fork st m [h]).1 in
    let m' := (Fork st m [h]).2 in
    H st' m h = Some wholeChain_h /\
    wholeChain st' m' = Some wholeChain_h /\
    forall (urlParamsExtractor : http_Request -> UrlParams) (fuel : nat)
           (w : http_ResponseWriter) (r : http_Request),
      H_closure st' wholeChain_h urlParamsExtractor fuel w r =
      ServeHTTP st' urlParamsExtractor fuel m' w r.
Proof.
  destruct (wholeChain_wf st m Hwf Hm) as (os & _ & Hl).
  exists (oldest_first os ++ [h]).
  pose proof (wholeChain_Fork st m [h] _ Hwf Hm Hl) as Hfork.
  pose proof (wholeChain_alloc st (Mezvaro.mk (Some m) [h]) m _ Hwf Hm Hl) as Halloc.
  split; [unfold H; by rewrite Hl|].
  intros st' m'. split; [|split; [exact Hfork|]].
  - unfold H. subst st'. unfold Fork, alloc. cbn [fst]. by rewrite Halloc.
  - intros ext fuel w r. unfold H_closure, ServeHTTP.
    subst st' m'. by rewrite Hfork.
Qed.

Lemma H_is_ServeHTTP_of_fork_witness :
  wf_store store1 /\ (0 < length store1)%nat /\
  exists wholeChain_h : list Handler,
    H store1 0%nat (tick 3) = Some wholeChain_h /\
    forall (urlParamsExtractor : http_Request -> UrlParams) (fuel : nat)
           (w : http_ResponseWriter) (r : http_Request),
      H_closure (Fork store1 0%nat [tick 3]).1 wholeChain_h urlParamsExtractor fuel w r =
      ServeHTTP (Fork store1 0%nat [tick 3]).1 urlParamsExtractor fuel
                (Fork store1 0%nat [tick 3]).2 w r.
Proof.
  assert (0 < length store1)%nat as Hlen by (simpl; lia).
  split; [exact wf_store1|]. split; [exact Hlen|].
  destruct (H_is_ServeHTTP_of_fork store1 0%nat (tick 3) wf_store1 Hlen)
    as (l & Hl & _ & _ & Heq).
  exists l. split; [exact Hl|exact Heq].
Defined.

(** * Abort and nested pipelines *)







(** * Further properties of pipelines *)

Lemma Lineage_length_le st a os :
  wf_store st -> Lineage st a os -> (length os <= S a)%nat.
Proof.
  intros Hwf. induction 1 as [a o Ho Hp | a o p os Ho Hp Hl IH]; simpl; [lia|].
  pose proof (Hwf a o p Ho Hp). lia.
Qed.

Lemma Lineage_live st a os : Lineage st a os -> (a < length st)%nat.
Proof. destruct 1 as [a o Ho _ | a o p os Ho _ _]; by eapply lookup_lt_Some. Qed.

Lemma wholeChain_Lineage_wf st a os :
  wf_store st -> Lineage st a os -> wholeChain st a = Some (oldest_first os).
Proof.
  intros Hwf Hl. apply wholeChain_Lineage; [done|].
  pose proof (Lineage_length_le st a os Hwf Hl).
  pose proof (Lineage_live st a os Hl). lia.
Qed.

Lemma Use_lookup_same st m hs o :
  st !! m = Some o ->
  Use st m hs !! m =
  Some (Mezvaro.mk (Mezvaro.parent o) (Mezvaro.handlerChain o ++ hs)).
Proof.
  intros Ho. unfold Use. rewrite Ho.
  apply list_lookup_insert_eq. by eapply lookup_lt_Some.
Qed.

Lemma Use_lookup_other st m hs a : a <> m -> Use st m hs !! a = st !! a.
Proof.
  intros Ha. unfold Use. destruct (st !! m); [|done].
  by apply list_lookup_insert_ne.
Qed.


Lemma Lineage_Use_older st m hs a os :
  wf_store st -> Lineage st a os -> (a < m)%nat -> Lineage (Use st m hs) a os.
Proof.
  intros Hwf. induction 1 as [a o Ho Hp | a o p os Ho Hp Hl IH]; intros Ha.
  - apply lineage_root; [|done]. rewrite Use_lookup_other by lia. done.
  - pose proof (Hwf a o p Ho Hp).
    eapply lineage_child; [|done|apply IH; lia].
    rewrite Use_lookup_other by lia. done.
Qed.

Lemma Lineage_Use_self st m hs o os :
  wf_store st -> Lineage st m (o :: os) ->
  Lineage (Use st m hs) m
    (Mezvaro.mk (Mezvaro.parent o) (Mezvaro.handlerChain o ++ hs) :: os).
Proof.
  intros Hwf Hl. inversion Hl as [a o' Ho Hp | a o' p os' Ho Hp Hl']; subst.
  - apply lineage_root; [|done]. by apply Use_lookup_same.
  - pose proof (Hwf m o p Ho Hp).
    eapply lineage_child; [by apply Use_lookup_same|done|].
    by apply Lineage_Use_older.
Qed.

Lemma oldest_first_cons o os :
  oldest_first (o :: os) = oldest_first os ++ Mezvaro.handlerChain o.
Proof.
  unfold oldest_first. rewrite reverse_cons, map_app, concat_app. simpl.
  by rewrite app_nil_r.
Qed.

Lemma wholeChain_Use_self st m hs l :
  wf_store st -> (m < length st)%nat -> wholeChain st m = Some l ->
  wholeChain (Use st m hs) m = Some (l ++ hs).
Proof.
  intros Hwf Hm Hl.
  destruct (wf_store_Lineage st Hwf (S m) m) as (os & Hos & _); [lia|done|].
  rewrite (wholeChain_Lineage_wf st m os Hwf Hos) in Hl. inversion Hl; subst l.
  destruct os as [|o os]; [apply Lineage_length_pos in Hos; simpl in Hos; lia|].
  rewrite (wholeChain_Lineage_wf _ m _ (wf_store_Use st m hs Hwf)
             (Lineage_Use_self st m hs o os Hwf Hos)).
  rewrite !oldest_first_cons. simpl. by rewrite app_assoc.
Qed.




(** A root pipeline with a fork of it. *)
Definition store2 : Store := (Fork store1 0%nat [tick 3]).1.

Lemma wf_store2 : wf_store store2.
Proof. apply wf_store_Fork; [exact wf_store1|simpl; lia]. Qed.




(** X4. Creating a pipeline, with [New] or with [Fork], changes the
    resolved chain of no pipeline that exists. *)
Theorem creation_keeps_chains (st : Store) (a m : loc) (hs : list Handler)
    (Hwf : wf_store st) (Ha : (a < length st)%nat) :
  wholeChain (New st hs).1 a = wholeChain st a /\
  wholeChain (Fork st m hs).1 a = wholeChain st a.
Proof.
  destruct (wholeChain_wf st a Hwf Ha) as (os & _ & Hl).
  rewrite Hl. split; by apply wholeChain_alloc.
Qed.

Lemma creation_keeps_chains_witness :
  wf_store store1 /\
  wholeChain (Fork store1 0%nat [tick 3]).1 0%nat = wholeChain store1 0%nat.
Proof.
  split; [exact wf_store1|].
  apply (creation_keeps_chains store1 0%nat 0%nat [tick 3] wf_store1). simpl. lia.
Defined.

(** X5. The resolved chain of a fork is the resolved chain of its parent
    followed by the handlers given to [Fork]; forking the fork again adds
    the next handlers after those. *)
Theorem Fork_extends_chain (st : Store) (m : loc) (hs1 hs2 l : list Handler)
    (Hwf : wf_store st) (Hm : (m < length st)%nat)
    (Hl : wholeChain st m = Some l) :
  let st1 := (Fork st m hs1).1 in
  let n1 := (Fork st m hs1).2 in
  wholeChain st1 n1 = Some (l ++ hs1) /\
  wholeChain (Fork st1 n1 hs2).1 (Fork st1 n1 hs2).2 = Some (l ++ hs1 ++ hs2).
Proof.
  intros st1 n1.
  pose proof (wholeChain_Fork st m hs1 l Hwf Hm Hl) as H1.
  split; [exact H1|].
  rewrite app_assoc. apply wholeChain_Fork; [by apply wf_store_Fork| |exact H1].
  subst st1 n1. unfold Fork, alloc. simpl. rewrite length_app. simpl. lia.
Qed.

Lemma Fork_extends_chain_witness :
  wf_store store1 /\
  wholeChain (Fork (Fork store1 0%nat [tick 3]).1 (Fork store1 0%nat [tick 3]).2
                   [tick 4]).1
             (Fork (Fork store1 0%nat [tick 3]).1 (Fork store1 0%nat [tick 3]).2
                   [tick 4]).2
  = Some ([tick 1; tick 2] ++ [tick 3] ++ [tick 4]).
Proof.
  split; [exact wf_store1|].
  apply (Fork_extends_chain store1 0%nat [tick 3] [tick 4] [tick 1; tick 2] wf_store1);
    [simpl; lia|reflexivity].
Defined.



(** The counter [handlerNo] of [wholeChain], as its first loop leaves it:
    [handlerNo += len(current.handlerChain)] for each pipeline walked. *)
Definition handlerNo (parents : list Mezvaro.t) : nat :=
  foldl (fun n p => (n + length (Mezvaro.handlerChain p))%nat) 0%nat parents.

Lemma handlerNo_from (k : nat) (parents : list Mezvaro.t) :
  foldl (fun n p => (n + length (Mezvaro.handlerChain p))%nat) k parents =
  (k + handlerNo parents)%nat.
Proof.
  unfold handlerNo. revert k.
  induction parents as [|p ps IH]; intros k; simpl; [lia|].
  rewrite IH, (IH (length (Mezvaro.handlerChain p))). lia.
Qed.

(** X7. The capacity that [wholeChain] computes before it allocates the
    result is the length of the chain it returns: the appends of the
    second loop fill the slice exactly. *)
Theorem wholeChain_capacity_exact (st : Store) (m : loc) (l : list Handler)
    (Hl : wholeChain st m = Some l) :
  exists parents : list Mezvaro.t,
    collect_parents (S (length st)) st (Some m) = Some parents /\
    l = append_reversed parents /\
    length l = handlerNo parents.
Proof.
  unfold wholeChain, wholeChain_fuel in Hl.
  destruct (collect_parents (S (length st)) st (Some m)) as [parents|] eqn:Hp; [|done].
  inversion Hl; subst l. exists parents. split; [done|]. split; [done|].
  clear. induction parents as [|p ps IH]; [done|].
  unfold handlerNo. simpl. rewrite handlerNo_from.
  unfold append_reversed in *. simpl. rewrite length_app, IH. lia.
Qed.

Lemma wholeChain_capacity_exact_witness :
  exists parents : list Mezvaro.t,
    collect_parents (S (length store2)) store2 (Some 1%nat) = Some parents /\
    [tick 1; tick 2; tick 3] = append_reversed parents /\
    length [tick 1; tick 2; tick 3] = handlerNo parents.
Proof.
  exact (wholeChain_capacity_exact store2 1%nat [tick 1; tick 2; tick 3] eq_refl).
Defined.



(** * Further properties of the context and the driver *)

(** ** What no run changes

    A property of the URL parameters and the nested scope that the three
    scope operations keep is kept by every run, whatever the handlers:
    native ones, adapted ones and nested pipelines. *)
Section Always.
Variable st : Store.
Variable P : World -> Prop.
Hypothesis P_frame : forall w w',
  P w -> urlParams (ctx w') = urlParams (ctx w) ->
  netCtx (ctx w') = netCtx (ctx w) -> P w'.
Hypothesis P_scope : forall w key val d,
  P w ->
  P (on_ctx (WithValue key val) w) /\ P (on_ctx WithCancel w) /\
  P (on_ctx (WithDeadline d) w).

Lemma prim_always op w : P w -> P (prim op w).
Proof using P_frame P_scope.
  intros Hw. destruct op; simpl; try (by eapply P_frame).
  - by apply (P_scope w key val 0).
  - by apply (P_scope w 0%nat 0%nat 0).
  - by apply (P_scope w 0%nat 0%nat d).
Qed.

Section Handlers.
Variable next : World -> Result.
Hypothesis next_always : forall w, P w -> P (world_of (next w)).

Lemma run_body_always b : forall w, P w -> P (world_of (run_body next b w)).
Proof using next_always P_frame P_scope.
  induction b as [|op k IH]; intros w Hw; [done|].
  simpl. destruct (CallNext_dec op) as [->|Hne].
  - simpl. pose proof (next_always w Hw) as Hn.
    destruct (next w) as [w'|w'|w']; simpl in *; [by apply IH|done|done].
  - rewrite do_op_prim by done. apply IH. by apply prim_always.
Qed.

Lemma run_sink_always s : forall called w, P w -> P (world_of (run_sink next s called w)).
Proof using next_always P_frame.
  induction s as [|op k IH]; intros called w Hw.
  - simpl. destruct called; simpl; [done|]. by eapply P_frame.
  - destruct op as [n|rw rq]; simpl.
    + apply IH. by eapply P_frame.
    + unfold inner_sink.
      assert (P (on_ctx (set_Request rq) (on_ctx (set_Response rw) w))) as Hw'
        by (by eapply P_frame).
      pose proof (next_always _ Hw') as Hn.
      destruct (next _) as [w'|w'|w']; simpl in *; [by apply IH|done|done].
Qed.

Lemma Handle_with_always h w : P w -> P (world_of (Handle_with st next h w)).
Proof using next_always P_frame P_scope.
  intros Hw. destruct h as [hf|m|mw|hd]; simpl.
  - by apply run_body_always.
  - unfold Handle_pipeline. destruct (wholeChain st m); [|done].
    apply next_always. by eapply P_frame.
  - by apply run_sink_always.
  - apply next_always. eapply P_frame; [exact Hw|by rewrite run_effects_ctx..].
Qed.
End Handlers.

Lemma drive_always fuel : forall s w, P w -> P (world_of (drive st fuel s w)).
Proof using P_frame P_scope.
  induction fuel as [|fuel IH]; intros s w Hw; [done|].
  rewrite drive_S. destruct (index (ctx w) <? s); [|done].
  destruct (chain_at _ _) as [h|]; [|done].
  assert (P (world_of (Handle_with st (Next st fuel) h
                         (note (Invoked (index (ctx w))) w)))) as Hh.
  { apply Handle_with_always; [|by eapply P_frame].
    intros w1 Hw1. unfold Next. apply IH. by eapply P_frame. }
  destruct (Handle_with _ _ _ _) as [w'|w'|w']; simpl in Hh; [|done|done].
  apply IH. by eapply P_frame.
Qed.

Lemma Next_always fuel w : P w -> P (world_of (Next st fuel w)).
Proof using P_frame P_scope.
  intros Hw. unfold Next. apply drive_always. by eapply P_frame.
Qed.
End Always.

(** [defaultURLParamsExtractor]: no parameters ([nil]). *)
Definition defaultURLParamsExtractor (r : http_Request) : UrlParams := [].

Lemma urlParams_kept st fuel w :
  urlParams (ctx (world_of (Next st fuel w))) = urlParams (ctx w).
Proof.
  apply (Next_always st (fun w' => urlParams (ctx w') = urlParams (ctx w))); [| |done].
  - intros w1 w2 H1 H2 _. congruence.
  - intros w1 key val d H1. by repeat split.
Qed.

(** X9. The URL parameters of a context are those the extractor gave for
    the request when the context was made, and they stay so through the
    whole run, whatever the handlers do and however the run ends; with
    the default extractor every parameter reads as the zero value. *)
Theorem urlParams_are_read_only (st : Store)
    (urlParamsExtractor : http_Request -> UrlParams)
    (fuel : nat) (m : loc) (chain : list Handler)
    (w : http_ResponseWriter) (r : http_Request) :
  urlParams (ctx (world_of (ServeHTTP st urlParamsExtractor fuel m w r))) =
    urlParamsExtractor r /\
  urlParams (ctx (world_of (H_closure st chain urlParamsExtractor fuel w r))) =
    urlParamsExtractor r /\
  (forall w0 : World,
     urlParams (ctx (world_of (Next st fuel w0))) = urlParams (ctx w0) /\
     urlParams (ctx (world_of (Handle st fuel m w0))) = urlParams (ctx w0)) /\
  (forall name : nat,
     UrlParam (ctx (world_of (ServeHTTP st defaultURLParamsExtractor fuel m w r))) name
     = 0%nat).
Proof.
  assert (forall ext,
            urlParams (ctx (world_of (ServeHTTP st ext fuel m w r))) = ext r) as HS.
  { intros ext. unfold ServeHTTP. destruct (wholeChain st m); [|done].
    by rewrite urlParams_kept. }
  split; [apply HS|]. split; [unfold H_closure; by rewrite urlParams_kept|].
  split.
  - intros w0. split; [apply urlParams_kept|].
    unfold Handle, Handle_pipeline. destruct (wholeChain st m); [|done].
    by rewrite urlParams_kept.
  - intros name. unfold UrlParam. by rewrite HS.
Qed.

(** The scope [n] is [base] or is nested, at some depth, in [base]. *)
Fixpoint scope_extends (base n : NetCtx) : Prop :=
  base = n \/
  match n with
  | Background => False
  | valueCtx p _ _ | cancelCtx p | timerCtx p _ => scope_extends base p
  end.

Lemma scope_extends_refl n : scope_extends n n.
Proof. destruct n; by left. Qed.

(** X10. No run drops or replaces the nested scope of the context:
    whatever the handlers do and however the run ends, the scope at the
    end is the scope at the start or is nested in it, each layer made by
    [WithValue], [WithCancel] or [WithDeadline]; a nested pipeline keeps
    it too. *)
Theorem scope_only_nests (st : Store) (fuel : nat) (m : loc) (w : World) :
  scope_extends (netCtx (ctx w)) (netCtx (ctx (world_of (Next st fuel w)))) /\
  scope_extends (netCtx (ctx w)) (netCtx (ctx (world_of (Handle st fuel m w)))).
Proof.
  assert (forall w0, scope_extends (netCtx (ctx w)) (netCtx (ctx w0)) ->
            scope_extends (netCtx (ctx w)) (netCtx (ctx (world_of (Next st fuel w0)))))
    as HN.
  { intros w0 H0.
    apply (Next_always st (fun w' => scope_extends (netCtx (ctx w)) (netCtx (ctx w'))));
      [| |done].
    - intros w1 w2 H1 _ H2. by rewrite H2.
    - intros w1 key val d H1. repeat split; simpl; by right. }
  split; [apply HN, scope_extends_refl|].
  unfold Handle, Handle_pipeline. destruct (wholeChain st m); [|apply scope_extends_refl].
  apply HN. simpl. apply scope_extends_refl.
Qed.

(** ** When [Next] returns *)

Lemma drive_Done_past fuel st : forall s w w',
  drive st fuel s w = Done w' -> s <= index (ctx w').
Proof.
  induction fuel as [|fuel IH]; intros s w w' Hr; [done|].
  rewrite drive_S in Hr.
  destruct (Z.ltb_spec (index (ctx w)) s) as [Hlt|Hge].
  - destruct (chain_at _ _) as [h|]; [|done].
    destruct (Handle_with _ _ _ _) as [w1|w1|w1]; [|done|done].
    by eapply IH.
  - inversion Hr; subst w'. done.
Qed.

(** X11. Whenever [Next] returns, whatever the handlers, the cursor is at
    or beyond the length the chain had when [Next] was called: the chain
    is exhausted or aborted.  So on an empty chain [Next] invokes nothing
    and returns with the cursor moved by one. *)
Theorem Next_returns_past_the_end (st : Store) (fuel : nat) (w w' : World)
    (Hdone : Next st fuel w = Done w') :
  Z.of_nat (length (handlerChain (ctx w))) <= index (ctx w') /\
  (handlerChain (ctx w) = [] -> 0 <= index (ctx w) + 1 ->
   w' = incr_index (note Continued w)).
Proof.
  split; [by eapply drive_Done_past|].
  intros Hnil Hi. unfold Next in Hdone. rewrite Hnil in Hdone.
  destruct fuel as [|fuel]; [done|]. rewrite drive_S in Hdone.
  destruct (Z.ltb_spec (index (ctx (incr_index (note Continued w)))) (Z.of_nat (length (@nil Handler))));
    [simpl in *; lia|]. by inversion Hdone.
Qed.

Lemma Next_returns_past_the_end_witness :
  Z.of_nat (length [tick 1; tick 2]) <= 2.
Proof.
  exact (proj1 (Next_returns_past_the_end [] 5
    (mkWorld (newContext response1 request1 [tick 1; tick 2] []) [])
    (mkWorld (mkContext response1 request1 [tick 1; tick 2] 2 [] Background)
             [Continued; Invoked 0; Did 1; Invoked 1; Did 2])
    eq_refl)).
Defined.

(** ** Order of invocation *)

Fixpoint ascending (l : list Z) : Prop :=
  match l with
  | [] => True
  | x :: l' => Forall (fun y => x < y) l' /\ ascending l'
  end.

Lemma ascending_snoc l x :
  ascending l -> Forall (fun y => y < x) l -> ascending (l ++ [x]).
Proof.
  induction l as [|a l IH]; intros Hl Hx; simpl; [by split|].
  destruct Hl as [Ha Hl]. apply Forall_cons in Hx as [Hax Hx].
  split; [|by apply IH].
  apply Forall_app. split; [done|]. by constructor.
Qed.

Lemma ascending_NoDup l : ascending l -> NoDup l.
Proof.
  induction l as [|a l IH]; intros Hl; [constructor|].
  destruct Hl as [Ha Hl]. constructor; [|by apply IH].
  intros Hin. rewrite Forall_forall in Ha. specialize (Ha a Hin). lia.
Qed.

Lemma calls_note e tr : calls [e] = [] -> calls (tr ++ [e]) = calls tr.
Proof. intros He. by rewrite calls_app, He, app_nil_r. Qed.

Section InOrder.
Variable st : Store.
Variable ch : list Handler.
Hypothesis ch_flat : Forall flat ch.
Hypothesis capacity : Z.of_nat (length ch) <= MaxHandlers + 1.

(** The invocations so far are in ascending order, within the chain, and
    none is beyond the cursor ([strict]: all are before it). *)
Definition in_order (strict : bool) (w : World) : Prop :=
  handlerChain (ctx w) = ch /\
  ascending (calls (trace w)) /\
  Forall (fun i => 0 <= i < Z.of_nat (length ch) /\
                   if strict then i < index (ctx w) else i <= index (ctx w))
         (calls (trace w)).

Lemma in_order_note strict e w :
  calls [e] = [] -> in_order strict w -> in_order strict (note e w).
Proof.
  intros He (Hc & Ha & Hb). unfold in_order. simpl.
  rewrite (calls_note e _ He). done.
Qed.

Lemma in_order_incr w : in_order false w -> in_order true (incr_index w).
Proof.
  intros (Hc & Ha & Hb). split; [done|]. split; [done|]. simpl.
  eapply Forall_impl; [exact Hb|]. simpl. intros i [? ?]. split; [done|lia].
Qed.

Lemma in_order_abort w : in_order false w -> in_order false (abort_op w).
Proof using capacity.
  intros (Hc & Ha & Hb). unfold in_order. simpl.
  rewrite (calls_note Aborted _ eq_refl). split; [done|]. split; [done|].
  eapply Forall_impl; [exact Hb|]. simpl. intros i [? ?]. split; [done|lia].
Qed.

Lemma in_order_Next fuel w :
  in_order false w ->
  holds_after (in_order false) (in_order true) (Next st fuel w).
Proof using ch_flat capacity.
  intros Hw.
  eapply (Next_safe st (fun _ => True) (fun _ _ _ => True) True ch); try exact Hw.
  - exact ch_flat.
  - by intros w0 [? _].
  - by intros w0 [? _].
  - intros w0 H0. by apply in_order_incr, in_order_note.
  - intros w0 h (Hc0 & Ha0 & Hb0) Hh. apply chain_at_Some in Hh as [Hi _].
    unfold in_order. simpl. rewrite calls_app. simpl.
    split; [done|]. split.
    + apply ascending_snoc; [done|].
      eapply Forall_impl; [exact Hb0|]. simpl. by intros i [_ ?].
    + apply Forall_app. split.
      * eapply Forall_impl; [exact Hb0|]. simpl. intros i [? ?]. split; [done|lia].
      * constructor; [|constructor]. split; [done|lia].
  - apply in_order_incr.
  - intros w0 (Hc0 & Ha0 & Hb0) _. split; [done|]. split; [done|].
    eapply Forall_impl; [exact Hb0|]. simpl. intros i [? ?]. split; [done|lia].
  - intros op w0 _ Hne H0. destruct op; try done; simpl.
    + by apply in_order_note.
    + by apply in_order_abort.
  - intros n w0. by apply in_order_note.
  - by intros w0 w1 rw rq _ H1 _.
  - intros _ w0. apply in_order_abort.
Qed.
End InOrder.

(** X12. In a run over a chain of at most [MaxHandlers + 1] handlers, none
    of them a nested pipeline, the driver invokes positions of the chain
    in strictly ascending order, whatever the fuel and the outcome: no
    handler is invoked twice or out of order, also when handlers abort or
    call [Next] more than once. *)
Theorem Next_invokes_in_ascending_order (st : Store) (chain : list Handler)
    (fuel : nat) (w : World)
    (Hflat : Forall flat chain)
    (Hcapacity : Z.of_nat (length chain) <= MaxHandlers + 1)
    (Hw : handlerChain (ctx w) = chain) (Hnew : trace w = []) :
  ascending (calls (trace (world_of (Next st fuel w)))) /\
  NoDup (calls (trace (world_of (Next st fuel w)))) /\
  Forall (fun i => 0 <= i < Z.of_nat (length chain))
         (calls (trace (world_of (Next st fuel w)))).
Proof.
  pose proof (in_order_Next st chain Hflat Hcapacity fuel w) as Hsafe.
  assert (in_order chain false w) as H0.
  { split; [done|]. rewrite Hnew. simpl. by split. }
  specialize (Hsafe H0).
  assert (exists b, in_order chain b (world_of (Next st fuel w))) as [b (_ & Ha & Hb)].
  { destruct (Next st fuel w); simpl in *; [by exists false|..];
      (destruct Hsafe; [by exists false|by exists true]). }
  split; [done|]. split; [by apply ascending_NoDup|].
  eapply Forall_impl; [exact Hb|]. simpl. by intros i [? _].
Qed.

Lemma Next_invokes_in_ascending_order_witness :
  Forall flat [next_then_abort; just_abort] /\
  ascending (calls (trace (world_of (Next [] 4
    (mkWorld (newContext response1 request1 [next_then_abort; just_abort] []) []))))).
Proof.
  assert (Forall flat [next_then_abort; just_abort]) as Hflat.
  { repeat constructor; simpl; intros; repeat split; done. }
  split; [exact Hflat|].
  apply (Next_invokes_in_ascending_order [] [next_then_abort; just_abort] 4
           (mkWorld (newContext response1 request1 [next_then_abort; just_abort] []) [])
           Hflat ltac:(unfold MaxHandlers; simpl; lia) eq_refl eq_refl).
Defined.

(** ** The adapters against native handlers *)

Fixpoint do_effects (l : list nat) (rest : Body) : Body :=
  match l with
  | [] => rest
  | n :: l' => Do (Effect n) (fun _ => do_effects l' rest)
  end.

Fixpoint sink_effects (l : list nat) (rest : Sink) : Sink :=
  match l with
  | [] => rest
  | n :: l' => SinkDo (SinkEffect n) (fun _ => sink_effects l' rest)
  end.

Lemma run_body_do_effects next l rest :
  forall w, run_body next (do_effects l rest) w = run_body next rest (run_effects l w).
Proof. induction l as [|n l IH]; intros w; simpl; [done|]. apply IH. Qed.

Lemma run_sink_sink_effects next l rest called :
  forall w, run_sink next (sink_effects l rest) called w =
            run_sink next rest called (run_effects l w).
Proof. induction l as [|n l IH]; intros w; simpl; [done|]. apply IH. Qed.

Lemma same_objects_same_world w :
  on_ctx (set_Request (Request (ctx w))) (on_ctx (set_Response (Response (ctx w))) w) = w.
Proof. by destruct w as [[] ?]. Qed.

(** The native handler that does what the plain handler does with the
    response and the request of the context, and then continues. *)
Definition plain_as_native
    (handler : http_ResponseWriter -> http_Request -> list nat) : Handler :=
  HandlerFunc (fun v =>
    do_effects (handler (vResponse v) (vRequest v)) (Do CallNext (fun _ => Return))).

(** X13. A plain handler adapted with [WrapHandler] (or [WrapHandlerFunc])
    behaves, as a handler of a chain, exactly like a native handler that
    does the same work and then calls [Next]: the handlers after it run
    before it returns, and as the last handler of a chain it just
    returns (the cursor being below the largest [int]). *)
Theorem WrapHandler_continues (st : Store) (next : World -> Result)
    (handler : http_ResponseWriter -> http_Request -> list nat) (w : World) :
  Handle_with st next (WrapHandler handler) w =
    Handle_with st next (plain_as_native handler) w /\
  Handle_with st next (WrapHandlerFunc handler) w =
    Handle_with st next (plain_as_native handler) w /\
  (forall fuel, index (ctx w) < MaxInt32 ->
     Z.of_nat (length (handlerChain (ctx w))) <= index (ctx w) + 1 ->
     Handle_with st (Next st (S fuel)) (WrapHandler handler) w =
     Done (incr_index (note Continued
             (run_effects (handler (Response (ctx w)) (Request (ctx w))) w)))).
Proof.
  assert (Handle_with st next (WrapHandler handler) w =
          Handle_with st next (plain_as_native handler) w) as Heq.
  { simpl. rewrite run_body_do_effects. simpl. by destruct (next _). }
  split; [exact Heq|]. split; [exact Heq|].
  intros fuel _ Hend. simpl. unfold Next. rewrite drive_S.
  rewrite run_effects_ctx.
  destruct (Z.ltb_spec (index (ctx (incr_index (note Continued
              (run_effects (handler (Response (ctx w)) (Request (ctx w))) w)))))
              (Z.of_nat (length (handlerChain (ctx w))))) as [Hlt|_]; [|done].
  simpl in Hlt. rewrite run_effects_ctx in Hlt. lia.
Qed.

(** A decorator whose handler works, serves the inner handler once with
    the objects it was served with, and works again. *)
Definition decorator_around
    (before after : http_ResponseWriter -> http_Request -> list nat)
    : http_ResponseWriter -> http_Request -> Sink :=
  fun rw rq =>
    sink_effects (before rw rq)
      (SinkDo (ServeInner rw rq) (fun _ => sink_effects (after rw rq) SinkReturn)).

Definition native_around
    (before after : http_ResponseWriter -> http_Request -> list nat) : Handler :=
  HandlerFunc (fun v =>
    do_effects (before (vResponse v) (vRequest v))
      (Do CallNext (fun _ => do_effects (after (vResponse v) (vRequest v)) Return))).

(** X14. A decorator that passes on the response and the request it was
    served with, serving its inner handler once, behaves when adapted with
    [WrapHandlerMiddleware] exactly like the native middleware that does
    the same work around a call of [Next]: the context is left as it is
    and nothing is aborted. *)
Theorem WrapHandlerMiddleware_passes_through (st : Store) (next : World -> Result)
    (before after : http_ResponseWriter -> http_Request -> list nat) (w : World) :
  Handle_with st next (WrapHandlerMiddleware (decorator_around before after)) w =
  Handle_with st next (native_around before after) w.
Proof.
  simpl. unfold decorator_around.
  rewrite run_sink_sink_effects, run_body_do_effects. simpl.
  unfold inner_sink.
  set (w1 := run_effects (before (Response (ctx w)) (Request (ctx w))) w).
  assert (ctx w1 = ctx w) as Hc by apply run_effects_ctx.
  rewrite <- Hc at 1 2. rewrite same_objects_same_world.
  destruct (next w1) as [w2|w2|w2]; [|done|done].
  rewrite run_sink_sink_effects, run_body_do_effects. done.
Qed.

(** ** A pipeline inside a chain *)

Example nested_pipeline_ends_outer_chain :
  Next store1 9 (mkWorld (newContext response1 request1 [Pipeline 0%nat; tick 9] []) []) =
  Done (mkWorld (mkContext response1 request1 [tick 1; tick 2] 3 [] Background)
                [Continued; Invoked 0; Continued; Invoked 0; Did 1; Invoked 1; Did 2]).
Proof. reflexivity. Qed.

Example nested_pipeline_panics :
  Next store1 9
    (mkWorld (newContext response1 request1 [Pipeline 0%nat; tick 8; tick 9; tick 10] []) []) =
  Panic (mkWorld (mkContext response1 request1 [tick 1; tick 2] 3 [] Background)
                 [Continued; Invoked 0; Continued; Invoked 0; Did 1; Invoked 1; Did 2]).
Proof. reflexivity. Qed.

(** X15. When the driver reaches a pipeline used as a handler of an outer
    chain, and no handler of the pipeline aborts, the resolved chain of the
    pipeline is run in full, and the context stays bound to it with the
    cursor past its end.  The handlers that follow the pipeline in the
    outer chain are never invoked: the loop of the outer [Next] stops if
    the cursor has passed the length of the outer chain, and otherwise
    indexes the nested chain out of range and panics. *)
Theorem nested_pipeline_takes_over (st : Store) (m : loc) (inner : list Handler)
    (w : World)
    (Hm : wholeChain st m = Some inner)
    (Hinner : Forall never_aborts inner)
    (Hreached : chain_at (handlerChain (ctx w)) (index (ctx w) + 1) = Some (Pipeline m)) :
  exists (fuel : nat) (w' : World) (new : list Event),
    handlerChain (ctx w') = inner /\
    trace w' =
      trace w ++ [Continued; Invoked (index (ctx w) + 1); Continued] ++ new /\
    calls new = seqZ 0 (Z.of_nat (length inner)) /\
    (Aborted ∉ new) /\
    index (ctx w') = Z.of_nat (length inner) + continues new + 1 /\
    forall f, (fuel <= f)%nat ->
      Next st f w =
      if index (ctx w') <? Z.of_nat (length (handlerChain (ctx w)))
      then Panic w' else Done w'.
Proof.
  pose proof (chain_at_Some _ _ _ Hreached) as [Hi _].
  set (w1 := incr_index (note Continued w)).
  set (w2 := note (Invoked (index (ctx w) + 1)) w1).
  set (w3 := on_ctx (set_index (-1)) (on_ctx (set_handlerChain inner) w2)).
  destruct (never_aborting_run st inner Hinner w3)
    as (f0 & w4 & new & Hr & Hc4 & Ht4 & Ha & Hcalls & Hidx); [done|simpl; lia|].
  unfold pending in Hcalls, Hidx. cbn [index ctx on_ctx set_index w3] in Hcalls, Hidx.
  replace (-1 + 1) with 0 in * by lia.
  replace (Z.of_nat (length inner) - 0) with (Z.of_nat (length inner)) in * by lia.
  rewrite length_seqZ in Hidx.
  exists (S (S f0)), (incr_index w4), new.
  split; [done|]. split.
  { simpl. rewrite Ht4. simpl. by rewrite <- !app_assoc. }
  split; [done|]. split; [done|]. split; [simpl; lia|].
  intros f Hf. destruct f as [|[|f]]; [lia|lia|].
  unfold Next. fold w1. rewrite drive_S.
  destruct (Z.ltb_spec (index (ctx w1)) (Z.of_nat (length (handlerChain (ctx w)))))
    as [_|Hge]; [|simpl in Hge; lia].
  replace (handlerChain (ctx w1)) with (handlerChain (ctx w)) by done.
  replace (index (ctx w1)) with (index (ctx w) + 1) by done.
  rewrite Hreached. fold w2.
  cbn [Handle_with]. unfold Handle_pipeline. rewrite Hm. fold w3.
  rewrite Hr by lia. rewrite drive_S.
  destruct (Z.ltb_spec (index (ctx (incr_index w4)))
              (Z.of_nat (length (handlerChain (ctx w))))) as [Hlt|Hge]; [|done].
  replace (handlerChain (ctx (incr_index w4))) with inner by (by rewrite <- Hc4).
  assert (chain_at inner (index (ctx (incr_index w4))) = None) as ->; [|done].
  unfold chain_at. destruct (Z.ltb_spec (index (ctx (incr_index w4))) 0); [done|].
  apply lookup_ge_None_2. simpl. pose proof (continues_nonneg new). lia.
Qed.

Lemma nested_pipeline_takes_over_witness :
  wholeChain store1 0%nat = Some [tick 1; tick 2] /\
  Forall never_aborts [tick 1; tick 2] /\
  exists (fuel : nat) (w' : World) (new : list Event),
    handlerChain (ctx w') = [tick 1; tick 2] /\
    trace w' = [] ++ [Continued; Invoked (-1 + 1); Continued] ++ new /\
    calls new = seqZ 0 2.
Proof.
  assert (Forall never_aborts [tick 1; tick 2]) as Hch.
  { repeat constructor; simpl; intros; repeat split; done. }
  split; [reflexivity|]. split; [exact Hch|].
  destruct (nested_pipeline_takes_over store1 0%nat [tick 1; tick 2]
              (mkWorld (newContext response1 request1 [Pipeline 0%nat; tick 9] []) [])
              eq_refl Hch eq_refl)
    as (fuel & w' & new & H1 & H2 & H3 & _).
  exists fuel, w', new. split; [exact H1|]. split; [exact H2|exact H3].
Defined.

(** ** More fuel does not change a result *)

Definition settled (r : Result) : Prop :=
  match r with OutOfFuel _ => False | _ => True end.

Section MoreFuel.
Variable st : Store.
Variables next1 next2 : World -> Result.
Hypothesis next_mono : forall w r, next1 w = r -> settled r -> next2 w = r.

Lemma run_body_mono b :
  forall w r, run_body next1 b w = r -> settled r -> run_body next2 b w = r.
Proof using next_mono.
  induction b as [|op k IH]; intros w r Hr Hs; [done|].
  simpl in *. destruct (CallNext_dec op) as [->|Hne].
  - simpl in *. destruct (next1 w) as [w1|w1|w1] eqn:Hn.
    + rewrite (next_mono w _ Hn I). by apply IH.
    + rewrite (next_mono w _ Hn I). done.
    + subst r. done.
  - rewrite do_op_prim in * by done. by apply IH.
Qed.

Lemma run_sink_mono s :
  forall called w r,
    run_sink next1 s called w = r -> settled r -> run_sink next2 s called w = r.
Proof using next_mono.
  induction s as [|op k IH]; intros called w r Hr Hs; [done|].
  destruct op as [n|rw rq]; simpl in *.
  - by apply IH.
  - unfold inner_sink in *.
    destruct (next1 _) as [w1|w1|w1] eqn:Hn.
    + rewrite (next_mono _ _ Hn I). by apply IH.
    + rewrite (next_mono _ _ Hn I). done.
    + subst r. done.
Qed.

Lemma Handle_with_mono h w r :
  Handle_with st next1 h w = r -> settled r -> Handle_with st next2 h w = r.
Proof using next_mono.
  destruct h as [hf|m|mw|hd]; simpl; intros Hr Hs.
  - by apply run_body_mono.
  - unfold Handle_pipeline in *. destruct (wholeChain st m).
    + by apply next_mono.
    + subst r. done.
  - by apply run_sink_mono.
  - by apply next_mono.
Qed.
End MoreFuel.

Lemma drive_mono st fuel :
  forall s w r, drive st fuel s w = r -> settled r -> drive st (S fuel) s w = r.
Proof.
  induction fuel as [|fuel IH]; intros s w r Hr Hs; [subst r; done|].
  rewrite drive_S. rewrite drive_S in Hr.
  destruct (index (ctx w) <? s); [|done].
  destruct (chain_at _ _) as [h|]; [|done].
  destruct (Handle_with st (Next st fuel) h _) as [w1|w1|w1] eqn:Hh.
  - rewrite (Handle_with_mono st (Next st fuel) (Next st (S fuel))
               ltac:(intros w0 r0 H0 Hs0; by apply IH) h _ _ Hh I).
    by apply IH.
  - rewrite (Handle_with_mono st (Next st fuel) (Next st (S fuel))
               ltac:(intros w0 r0 H0 Hs0; by apply IH) h _ _ Hh I).
    done.
  - subst r. done.
Qed.

Lemma Next_mono st fuel fuel' w r :
  Next st fuel w = r -> settled r -> (fuel <= fuel')%nat -> Next st fuel' w = r.
Proof.
  intros Hr Hs Hle. induction Hle as [|f Hle IH]; [done|].
  by apply drive_mono.
Qed.



Lemma WrapHandler_continues_witness :
  Handle_with [] (Next [] 1) (WrapHandler (fun _ _ => [5%nat]))
    (mkWorld (mkContext response1 request1 [WrapHandler (fun _ _ => [5%nat])] 0 []
                        Background) []) =
  Done (incr_index (note Continued
          (run_effects [5%nat]
             (mkWorld (mkContext response1 request1 [WrapHandler (fun _ _ => [5%nat])] 0 []
                                 Background) [])))).
Proof.
  assert (Z.of_nat (length [WrapHandler (fun _ _ => [5%nat])]) <= 0 + 1) as Hend
    by (simpl; lia).
  assert (0 < MaxInt32) as Hint by (unfold MaxInt32; lia).
  exact (proj2 (proj2 (WrapHandler_continues [] (Next [] 1) (fun _ _ => [5%nat])
    (mkWorld (mkContext response1 request1 [WrapHandler (fun _ _ => [5%nat])] 0 []
                        Background) []))) 0%nat Hint Hend).
Defined.

(** * A chain that holds a pipeline *)

(** C2.  The code departs from the claim on a chain that holds a pipeline:
    in a drive of a new context over [Pipeline m; tick 9], where the
    pipeline [m] has the two handlers [tick 1; tick 2], the driver invokes
    the pipeline, which runs its two handlers, and returns without
    invoking [tick 9], the second handler of the chain, though nothing has
    aborted; with two more handlers after the pipeline the driver indexes
    the chain of the pipeline out of range.  More fuel changes neither. *)
Theorem Next_drops_handlers_after_pipeline :
  wholeChain store1 0%nat = Some [tick 1; tick 2] /\
  (forall fuel, (9 <= fuel)%nat ->
     Next store1 fuel
       (mkWorld (newContext response1 request1 [Pipeline 0%nat; tick 9] []) []) =
     Done (mkWorld (mkContext response1 request1 [tick 1; tick 2] 3 [] Background)
             [Continued; Invoked 0; Continued; Invoked 0; Did 1; Invoked 1; Did 2])) /\
  (Did 9 ∉ [Continued; Invoked 0; Continued; Invoked 0; Did 1; Invoked 1; Did 2]) /\
  (Aborted ∉ [Continued; Invoked 0; Continued; Invoked 0; Did 1; Invoked 1; Did 2]) /\
  (forall fuel, (9 <= fuel)%nat ->
     Next store1 fuel
       (mkWorld (newContext response1 request1
                   [Pipeline 0%nat; tick 8; tick 9; tick 10] []) []) =
     Panic (mkWorld (mkContext response1 request1 [tick 1; tick 2] 3 [] Background)
              [Continued; Invoked 0; Continued; Invoked 0; Did 1; Invoked 1; Did 2])).
Proof.
  split; [reflexivity|]. split; [|split; [|split]].
  - intros fuel Hf. by apply (Next_mono store1 9 fuel).
  - intros Hin. repeat (apply elem_of_cons in Hin as [Hin|Hin]; [discriminate|]).
    by apply elem_of_nil in Hin.
  - intros Hin. repeat (apply elem_of_cons in Hin as [Hin|Hin]; [discriminate|]).
    by apply elem_of_nil in Hin.
  - intros fuel Hf. by apply (Next_mono store1 9 fuel).
Qed.

Lemma Next_drops_handlers_after_pipeline_witness :
  Next store1 9
    (mkWorld (newContext response1 request1 [Pipeline 0%nat; tick 9] []) []) =
  Done (mkWorld (mkContext response1 request1 [tick 1; tick 2] 3 [] Background)
          [Continued; Invoked 0; Continued; Invoked 0; Did 1; Invoked 1; Did 2]).
Proof.
  exact (proj1 (proj2 Next_drops_handlers_after_pipeline) 9%nat (le_n 9)).
Defined.

(** * Handler lists as slices

    [handlerChain] is a slice: a window on a backing array, which other
    slices may share.  [New] and [Fork] keep the slice they are given and
    [Use] appends to it with [append], which writes in place when the
    capacity allows.  Here the store of pipelines is paired with the
    backing arrays; [Use] above is the effect on the lists of handlers
    when the cells that [append] writes are in no other pipeline's
    window, as is shown below.

    An array holds the handlers of its initialised cells, in order, and
    has a capacity; the cells beyond are [nil]. *)
Record Array : Type := mkArray { cells : list Handler; acap : nat }.

(** Array, offset of the first element, length, capacity. *)
Record Slice : Type := mkSlice {
  s_array : nat; s_off : nat; s_len : nat; s_cap : nat
}.

Module Slices.
Record Pipeline : Type := mkPipeline {
  parent : option loc;
  handlerChain : Slice
}.

Record Store : Type := mkStore {
  arrays : list Array;
  pipelines : list Pipeline
}.

(** The elements of a slice. *)
Definition elements (mem : list Array) (s : Slice) : list Handler :=
  match mem !! s_array s with
  | Some a => take (s_len s) (drop (s_off s) (cells a))
  | None => []
  end.

(** The slice that holds the arguments of a call written with its
    arguments listed: a new array, full. *)
Definition listed (mem : list Array) (hs : list Handler) : list Array * Slice :=
  (mem ++ [mkArray hs (length hs)], mkSlice (length mem) 0 (length hs) (length hs)).

(** [append(s, hs...)]: in place if [len(s) + len(hs) <= cap(s)], else in
    a new array, whose capacity is at least the length needed and
    otherwise up to the run time ([grow]). *)
Definition append (grow : nat -> nat -> nat) (mem : list Array) (s : Slice)
    (hs : list Handler) : list Array * Slice :=
  let n := (s_len s + length hs)%nat in
  if (n <=? s_cap s)%nat then
    (alter (fun a =>
              mkArray (take (s_off s + s_len s) (cells a) ++ hs ++
                       drop (s_off s + n) (cells a)) (acap a))
           (s_array s) mem,
     mkSlice (s_array s) (s_off s) n (s_cap s))
  else
    let c := Nat.max n (grow (s_cap s) n) in
    (mem ++ [mkArray (elements mem s ++ hs) c], mkSlice (length mem) 0 n c).

(** [New(handlers...)] and [m.Fork(handlers...)] keep the slice. *)
Definition New (st : Store) (handlers : Slice) : Store * loc :=
  (mkStore (arrays st) (pipelines st ++ [mkPipeline None handlers]),
   length (pipelines st)).

Definition Fork (st : Store) (m : loc) (handlers : Slice) : Store * loc :=
  (mkStore (arrays st) (pipelines st ++ [mkPipeline (Some m) handlers]),
   length (pipelines st)).

(** [m.handlerChain = append(m.handlerChain, handler...)]. *)
Definition Use (grow : nat -> nat -> nat) (st : Store) (m : loc)
    (handler : list Handler) : Store :=
  match pipelines st !! m with
  | Some o =>
      let r := append grow (arrays st) (handlerChain o) handler in
      mkStore r.1 (<[m := mkPipeline (parent o) r.2]> (pipelines st))
  | None => st
  end.

(** The variants build a new slice of wrapped handlers and pass it on. *)
Definition UseFunc grow (st : Store) (m : loc) (handlerFuncs : list (View -> Body)) :=
  Use grow st m (map HandlerFunc handlerFuncs).
Definition UseHandlerMiddleware grow (st : Store) (m : loc)
    (middleware : list (http_ResponseWriter -> http_Request -> Sink)) :=
  Use grow st m (map WrapHandlerMiddleware middleware).
Definition UseHandler grow (st : Store) (m : loc)
    (handlers : list (http_ResponseWriter -> http_Request -> list nat)) :=
  Use grow st m (map WrapHandler handlers).
Definition UseHandlerFunc grow (st : Store) (m : loc)
    (handlers : list (http_ResponseWriter -> http_Request -> list nat)) :=
  Use grow st m (map WrapHandlerFunc handlers).

(** The pipelines with the handlers their slices hold: what [wholeChain],
    which only reads, sees. *)
Definition lists (st : Store) : list Mezvaro.t :=
  map (fun o => Mezvaro.mk (parent o) (elements (arrays st) (handlerChain o)))
      (pipelines st).

(** A slice within its array. *)
Definition valid (mem : list Array) (s : Slice) : Prop :=
  (s_len s <= s_cap s)%nat /\
  (s_cap s = 0%nat \/
   exists a, mem !! s_array s = Some a /\
             (s_off s + s_len s <= length (cells a))%nat /\
             (s_off s + s_cap s <= acap a)%nat).

Definition valid_store (st : Store) : Prop :=
  forall a o, pipelines st !! a = Some o -> valid (arrays st) (handlerChain o).

(** No other pipeline has elements in the array of the slice of [m]. *)
Definition alone (st : Store) (m : loc) : Prop :=
  forall a o om,
    a <> m -> pipelines st !! a = Some o -> pipelines st !! m = Some om ->
    s_array (handlerChain o) <> s_array (handlerChain om) \/
    s_len (handlerChain o) = 0%nat.
End Slices.

Lemma elements_length mem s :
  Slices.valid mem s -> length (Slices.elements mem s) = s_len s.
Proof.
  intros [Hlen [Hcap|(a & Ha & Hin & _)]]; unfold Slices.elements.
  - destruct (mem !! s_array s); [|simpl; lia].
    rewrite length_take. lia.
  - rewrite Ha, length_take, length_drop. lia.
Qed.

Lemma elements_append grow mem s hs :
  Slices.valid mem s ->
  Slices.elements (Slices.append grow mem s hs).1 (Slices.append grow mem s hs).2
  = Slices.elements mem s ++ hs.
Proof.
  intros Hv. pose proof (elements_length mem s Hv) as Hl.
  unfold Slices.append.
  destruct (Nat.leb_spec (s_len s + length hs) (s_cap s)) as [Hfit|Hno]; cbn [fst snd].
  - unfold Slices.elements at 1. cbn [s_array s_off s_len].
    rewrite list_lookup_alter_eq.
    destruct Hv as [Hlen [Hcap|(a & Ha & Hin & _)]].
    + assert (hs = []) as -> by (destruct hs; [done|simpl in Hfit; lia]).
      assert (s_len s = 0%nat) as Hz by lia.
      rewrite app_nil_r. unfold Slices.elements.
      destruct (mem !! s_array s); simpl; [|done].
      rewrite Hz. done.
    + unfold Slices.elements. rewrite Ha. simpl.
      rewrite drop_app_le by (rewrite length_take; lia).
      rewrite <- take_drop_commute.
      rewrite app_assoc. apply take_app_length'.
      rewrite length_app, length_take, length_drop. lia.
  - unfold Slices.elements at 1. cbn [s_array s_off s_len].
    rewrite lookup_app_r by lia. rewrite Nat.sub_diag. simpl.
    rewrite drop_0. apply take_ge. rewrite length_app. lia.
Qed.

Lemma elements_append_other grow mem s hs t :
  (s_len t = 0%nat \/ (s_array t <> s_array s /\ (s_array t < length mem)%nat)) ->
  Slices.elements (Slices.append grow mem s hs).1 t = Slices.elements mem t.
Proof.
  intros [Hz|[Hne Hlt]].
  - unfold Slices.elements. rewrite Hz.
    destruct (_ !! _), (mem !! _); done.
  - unfold Slices.append, Slices.elements.
    destruct (s_len s + length hs <=? s_cap s)%nat; cbn [fst].
    + rewrite list_lookup_alter_ne by done. done.
    + rewrite lookup_app_l by done. done.
Qed.

(** Where the written cells are in no other window, the slices behave as
    the lists of handlers. *)
Lemma lists_Use grow st m hs :
  Slices.valid_store st -> Slices.alone st m ->
  Slices.lists (Slices.Use grow st m hs) = Use (Slices.lists st) m hs.
Proof.
  intros Hv Hal. unfold Slices.Use, Use, Slices.lists.
  rewrite list_lookup_fmap. unfold loc in *.
  destruct (Slices.pipelines st !! m) as [om|] eqn:Hm; simpl; [|done].
  apply list_eq. intros i. rewrite list_lookup_fmap.
  destruct (decide (i = m)) as [->|Hne].
  - pose proof (lookup_lt_Some _ _ _ Hm) as Hlt.
    rewrite !list_lookup_insert_eq by (by rewrite ?length_fmap).
    simpl. f_equal. f_equal. apply elements_append. by eapply Hv.
  - rewrite !list_lookup_insert_ne by done. rewrite list_lookup_fmap.
    destruct (Slices.pipelines st !! i) as [o|] eqn:Hi; simpl; [|done].
    f_equal. f_equal. apply elements_append_other.
    destruct (Hal i o om Hne Hi Hm) as [Hd|Hz]; [|by left].
    destruct (Hv i o Hi) as [Hlen [Hcap|(a & Ha & _)]]; [left; lia|].
    right. split; [done|]. by eapply lookup_lt_Some.
Qed.

(** Two pipelines made with their handlers listed, as [store2] is: the
    root [New(tick 1, tick 2)] and its fork [Fork(tick 3)]. *)
Definition sstore1 : Slices.Store :=
  (Slices.New (Slices.mkStore (Slices.listed [] [tick 1; tick 2]).1 [])
              (Slices.listed [] [tick 1; tick 2]).2).1.

Definition sstore2 : Slices.Store :=
  (Slices.Fork
     (Slices.mkStore (Slices.listed (Slices.arrays sstore1) [tick 3]).1
                     (Slices.pipelines sstore1))
     0%nat (Slices.listed (Slices.arrays sstore1) [tick 3]).2).1.

Lemma lists_sstore2 : Slices.lists sstore2 = store2.
Proof. reflexivity. Qed.

Lemma valid_sstore2 : Slices.valid_store sstore2.
Proof.
  intros a o Ha. destruct a as [|[|a]]; simpl in Ha; inversion Ha; subst o;
    (split; simpl; [lia|right; eexists; split; [reflexivity|simpl; lia]]).
Qed.

Lemma alone_sstore2 m : Slices.alone sstore2 m.
Proof.
  intros a o om Hne Ha Hm.
  destruct a as [|[|a]]; simpl in Ha; inversion Ha; subst o;
    destruct m as [|[|m]]; simpl in Hm; inversion Hm; subst om;
    try done; left; simpl; lia.
Qed.

Definition doubling (cap needed : nat) : nat := (2 * needed)%nat.

(** X1. [Use] appends the handlers to the slice of the pipeline: read
    through its new slice, the pipeline has its former handlers followed
    by the new ones, whether [append] wrote in place or moved to a new
    array.  No pipeline is created and no parent link changes; a pipeline
    whose slice is empty or lies in another array reads as before. *)
Theorem Use_appends_to_slice (grow : nat -> nat -> nat) (st : Slices.Store)
    (m : loc) (om : Slices.Pipeline) (hs : list Handler)
    (Hm : Slices.pipelines st !! m = Some om)
    (Hvalid : Slices.valid (Slices.arrays st) (Slices.handlerChain om)) :
  let st' := Slices.Use grow st m hs in
  (exists om',
     Slices.pipelines st' !! m = Some om' /\
     Slices.parent om' = Slices.parent om /\
     Slices.elements (Slices.arrays st') (Slices.handlerChain om') =
       Slices.elements (Slices.arrays st) (Slices.handlerChain om) ++ hs) /\
  length (Slices.pipelines st') = length (Slices.pipelines st) /\
  (forall a o, a <> m -> Slices.pipelines st !! a = Some o ->
     Slices.pipelines st' !! a = Some o /\
     (s_len (Slices.handlerChain o) = 0%nat \/
      (s_array (Slices.handlerChain o) <> s_array (Slices.handlerChain om) /\
       (s_array (Slices.handlerChain o) < length (Slices.arrays st))%nat) ->
      Slices.elements (Slices.arrays st') (Slices.handlerChain o) =
      Slices.elements (Slices.arrays st) (Slices.handlerChain o))).
Proof.
  intros st'. subst st'. unfold Slices.Use. unfold loc in *. rewrite Hm.
  pose proof (lookup_lt_Some _ _ _ Hm) as Hlt. cbn [Slices.pipelines Slices.arrays].
  split; [|split].
  - eexists. split; [by apply list_lookup_insert_eq|]. split; [done|].
    cbn [Slices.handlerChain]. by apply elements_append.
  - apply length_insert.
  - intros a o Hne Ha. split.
    + rewrite list_lookup_insert_ne by done. done.
    + intros Hfar. by apply elements_append_other.
Qed.

Lemma Use_appends_to_slice_witness :
  exists om',
    Slices.pipelines (Slices.Use doubling sstore2 0%nat [tick 4]) !! 0%nat = Some om' /\
    Slices.parent om' = None /\
    Slices.elements (Slices.arrays (Slices.Use doubling sstore2 0%nat [tick 4]))
                    (Slices.handlerChain om') =
      [tick 1; tick 2] ++ [tick 4].
Proof.
  assert (Slices.valid (Slices.arrays sstore2) (mkSlice 0 0 2 2)) as Hv
    by (exact (valid_sstore2 0%nat _ eq_refl)).
  exact (proj1 (Use_appends_to_slice doubling sstore2 0%nat
                  (Slices.mkPipeline None (mkSlice 0 0 2 2)) [tick 4] eq_refl Hv)).
Defined.





(** X6. Where no other pipeline has handlers in the backing array of the
    pipeline, the four variants of [Use] for other kinds of handlers wrap
    each argument and append the results, in order: the resolved chain of
    the pipeline grows by one handler for each argument. *)
Theorem Use_variants_append_to_slice (grow : nat -> nat -> nat) (st : Slices.Store)
    (m : loc) (l : list Handler)
    (Hvalid : Slices.valid_store st) (Halone : Slices.alone st m)
    (Hwf : wf_store (Slices.lists st))
    (Hm : (m < length (Slices.lists st))%nat)
    (Hl : wholeChain (Slices.lists st) m = Some l) :
  (forall fs, wholeChain (Slices.lists (Slices.UseFunc grow st m fs)) m =
                Some (l ++ map HandlerFunc fs)) /\
  (forall ms, wholeChain (Slices.lists (Slices.UseHandlerMiddleware grow st m ms)) m =
                Some (l ++ map WrapHandlerMiddleware ms)) /\
  (forall hs, wholeChain (Slices.lists (Slices.UseHandler grow st m hs)) m =
                Some (l ++ map WrapHandler hs)) /\
  (forall hs, wholeChain (Slices.lists (Slices.UseHandlerFunc grow st m hs)) m =
                Some (l ++ map WrapHandler hs)).
Proof.
  unfold Slices.UseFunc, Slices.UseHandlerMiddleware, Slices.UseHandler,
    Slices.UseHandlerFunc.
  repeat split; intros; rewrite lists_Use by done;
    by apply wholeChain_Use_self.
Qed.

Lemma Use_variants_append_to_slice_witness :
  Slices.valid_store sstore2 /\ Slices.alone sstore2 0%nat /\
  wholeChain (Slices.lists (Slices.UseHandler doubling sstore2 0%nat
                              [fun _ _ => [5%nat]])) 0%nat =
    Some ([tick 1; tick 2] ++ map WrapHandler [fun _ _ => [5%nat]]).
Proof.
  split; [exact valid_sstore2|]. split; [exact (alone_sstore2 0%nat)|].
  assert (0 < length (Slices.lists sstore2))%nat as H0 by (simpl; lia).
  exact (proj1 (proj2 (proj2
    (Use_variants_append_to_slice doubling sstore2 0%nat [tick 1; tick 2]
       valid_sstore2 (alone_sstore2 0%nat) wf_store2 H0 eq_refl))) _).
Defined.



(** Two pipelines made from the same slice, which has room to spare:
    [base := make([]Handler, 1, 4)] holding [tick 1], then
    [New(base...)] twice. *)
Definition shared : Slices.Store :=
  (Slices.New
     (Slices.New (Slices.mkStore [mkArray [tick 1] 4] []) (mkSlice 0 0 1 4)).1
     (mkSlice 0 0 1 4)).1.

(** X19. Where a pipeline [a] has a handler in the cell just after the
    slice of [m], the two slices starting at the same cell of the same
    array, and the slice of [m] has room, [Use] on [m] writes in place and
    the handler of [a] at that position becomes the first handler given
    to [m]. *)
Theorem Use_overwrites_shared_array (grow : nat -> nat -> nat) (st : Slices.Store)
    (m a : loc) (om oa : Slices.Pipeline) (h : Handler) (hs : list Handler)
    (Hne : a <> m)
    (Hm : Slices.pipelines st !! m = Some om)
    (Ha : Slices.pipelines st !! a = Some oa)
    (Hvalid : Slices.valid (Slices.arrays st) (Slices.handlerChain om))
    (Harray : s_array (Slices.handlerChain oa) = s_array (Slices.handlerChain om))
    (Hoff : s_off (Slices.handlerChain oa) = s_off (Slices.handlerChain om))
    (Hlonger : (s_len (Slices.handlerChain om) < s_len (Slices.handlerChain oa))%nat)
    (Hroom : (s_len (Slices.handlerChain om) + S (length hs)
              <= s_cap (Slices.handlerChain om))%nat) :
  Slices.pipelines (Slices.Use grow st m (h :: hs)) !! a = Some oa /\
  Slices.elements (Slices.arrays (Slices.Use grow st m (h :: hs)))
                  (Slices.handlerChain oa)
    !! s_len (Slices.handlerChain om) = Some h.
Proof.
  unfold Slices.Use. unfold loc in *. rewrite Hm.
  cbn [Slices.pipelines Slices.arrays].
  split; [by rewrite list_lookup_insert_ne|].
  unfold Slices.append. cbn [length].
  destruct (Nat.leb_spec (s_len (Slices.handlerChain om) + S (length hs))
              (s_cap (Slices.handlerChain om))) as [_|Hno]; [|lia].
  cbn [fst]. unfold Slices.elements. rewrite Harray, Hoff.
  rewrite list_lookup_alter_eq.
  destruct Hvalid as [Hlen [Hcap|(arr & Harr & Hin & _)]]; [lia|].
  rewrite Harr. simpl.
  rewrite lookup_take_lt by done. rewrite lookup_drop.
  rewrite lookup_app_r by (rewrite length_take; lia).
  rewrite length_take.
  replace (s_off (Slices.handlerChain om) + s_len (Slices.handlerChain om) -
           (s_off (Slices.handlerChain om) + s_len (Slices.handlerChain om)) `min`
           length (cells arr))%nat with 0%nat by lia.
  done.
Qed.

Lemma Use_overwrites_shared_array_witness :
  Slices.lists (Slices.Use doubling shared 0%nat [tick 2]) !! 0%nat =
    Some (Mezvaro.mk None [tick 1; tick 2]) /\
  Slices.elements
    (Slices.arrays (Slices.Use doubling (Slices.Use doubling shared 0%nat [tick 2])
                      1%nat [tick 3]))
    (mkSlice 0 0 2 4) !! 1%nat = Some (tick 3).
Proof.
  split; [reflexivity|].
  assert (0%nat <> 1%nat) as Hne by lia.
  assert (Slices.valid (Slices.arrays (Slices.Use doubling shared 0%nat [tick 2]))
            (mkSlice 0 0 1 4)) as Hv.
  { split; simpl; [lia|]. right. eexists. split; [reflexivity|]. simpl. lia. }
  assert (1 < 2)%nat as H12 by lia.
  assert (1 + 1 <= 4)%nat as Hroom by lia.
  exact (proj2 (Use_overwrites_shared_array doubling
    (Slices.Use doubling shared 0%nat [tick 2]) 1%nat 0%nat
    (Slices.mkPipeline None (mkSlice 0 0 1 4))
    (Slices.mkPipeline None (mkSlice 0 0 2 4))
    (tick 3) [] Hne eq_refl eq_refl Hv eq_refl eq_refl H12 Hroom)).
Defined.
